(** * The durable log of a Raft implementation: a checksummed line codec
      (log_entry.go) and the log that replays, appends and commits (log.go).

    The development embeds the two Go files as Rocq functions and proves the
    properties of the specification about them.

    - Bytes are [list ascii]; Go strings are byte sequences as well.
    - [uint64] and [uint32] values are [N] with their range stated where it
      matters.
    - The file system is a finite map from paths to contents, with an oracle
      for the system calls that may fail.
    - The command payload format belongs to the application: commands are an
      interface ([CommandAPI]) with a name, a serializer and a stream decoder.
*)

From Stdlib Require Import NArith Ascii String List Lia Bool.
From stdpp Require Import gmap strings list.
Import ListNotations.

Local Open Scope N_scope.

Abbreviation bytes := (list ascii).

Definition byteN (c : ascii) : N := N_of_ascii c.

Definition SP : ascii := " "%char.
Definition NL : ascii := "010"%char.

(** ** hash/crc32: ChecksumIEEE *)

Module CRC32.

(** The reflected IEEE polynomial, one bit at a time. *)
Definition IEEE : N := 0xEDB88320.

Definition shift (crc : N) : N :=
  if N.testbit crc 0 then N.lxor (N.shiftr crc 1) IEEE else N.shiftr crc 1.

Definition update (crc : N) (b : ascii) : N :=
  Nat.iter 8 shift (N.lxor crc (byteN b)).

Definition ChecksumIEEE (data : bytes) : N :=
  N.lxor (fold_left update data 0xFFFFFFFF) 0xFFFFFFFF.

End CRC32.

(** ** fmt: the verbs %08x and %016x of Fprintf *)

Module Hex.

Definition digit (d : N) : ascii :=
  if d <? 10 then ascii_of_N (48 + d) else ascii_of_N (87 + d).

(** The digits of [n] in base 16, most significant first, no padding. *)
Fixpoint digits_fuel (fuel : nat) (n : N) : bytes :=
  match fuel with
  | O => []
  | S f =>
      if n <? 16 then [digit n]
      else digits_fuel f (n / 16) ++ [digit (n mod 16)]
  end.

Definition digits (n : N) : bytes := digits_fuel (S (N.to_nat (N.log2 n))) n.

(** [%0<width>x]: zero padding on the left up to [width] characters. *)
Definition fmt_x (width : nat) (n : N) : bytes :=
  let d := digits n in repeat "0"%char (width - length d)%nat ++ d.

(** The value of one character as strconv.ParseUint reads it in base 16. *)
Definition digit_value (c : ascii) : option N :=
  let b := byteN c in
  if (48 <=? b) && (b <=? 57) then Some (b - 48)
  else if (97 <=? b) && (b <=? 102) then Some (b - 87)
  else if (65 <=? b) && (b <=? 70) then Some (b - 55)
  else None.

Fixpoint parse_from (acc : N) (s : bytes) : option N :=
  match s with
  | [] => Some acc
  | c :: s' =>
      match digit_value c with
      | Some d => parse_from (16 * acc + d) s'
      | None => None
      end
  end.

(** strconv.ParseUint(s, 16, 64) on a token of at most 16 characters. *)
Definition ParseUint (s : bytes) : option N :=
  match s with
  | [] => None
  | _ => parse_from 0 s
  end.

(** A lower-case hexadecimal digit, and the number a digit string denotes:
    the vocabulary of the on-disk format. *)
Definition lower_hex (c : ascii) : Prop :=
  In c (list_ascii_of_string "0123456789abcdef").

Definition value (s : bytes) : N :=
  fold_left (fun acc c => 16 * acc + default 0 (digit_value c)) s 0.

End Hex.

(** ** unicode/utf8 and fmt's scanner: Fscanf reads runes, not bytes *)

Module Scan.

Definition RuneError : N := 0xFFFD.

Definition between (lo hi x : N) : bool := (lo <=? x) && (x <=? hi).

(** Size of the sequence a lead byte announces and the range accepted
    for its second byte; size 1 marks an invalid lead byte. *)
Definition lead (b0 : N) : nat * N * N :=
  if between 0xC2 0xDF b0 then (2%nat, 0x80, 0xBF)
  else if b0 =? 0xE0 then (3%nat, 0xA0, 0xBF)
  else if between 0xE1 0xEC b0 then (3%nat, 0x80, 0xBF)
  else if b0 =? 0xED then (3%nat, 0x80, 0x9F)
  else if between 0xEE 0xEF b0 then (3%nat, 0x80, 0xBF)
  else if b0 =? 0xF0 then (4%nat, 0x90, 0xBF)
  else if between 0xF1 0xF3 b0 then (4%nat, 0x80, 0xBF)
  else if b0 =? 0xF4 then (4%nat, 0x80, 0x8F)
  else (1%nat, 0, 0).

Definition low6 (b : N) : N := N.land b 0x3F.

(** utf8.DecodeRune: the code point and its width in bytes; an invalid or
    short sequence decodes as (RuneError, 1), the empty input as
    (RuneError, 0). *)
Definition DecodeRune (p : bytes) : N * nat :=
  match p with
  | [] => (RuneError, 0%nat)
  | c0 :: p1 =>
      let b0 := byteN c0 in
      if b0 <? 0x80 then (b0, 1%nat)
      else
        let '(sz, lo, hi) := lead b0 in
        match sz, p1 with
        | 1%nat, _ => (RuneError, 1%nat)
        | _, [] => (RuneError, 1%nat)
        | _, c1 :: p2 =>
            let b1 := byteN c1 in
            if negb (between lo hi b1) then (RuneError, 1%nat)
            else if (sz =? 2)%nat
              then (N.lor (N.shiftl (N.land b0 0x1F) 6) (low6 b1), 2%nat)
            else
              match p2 with
              | [] => (RuneError, 1%nat)
              | c2 :: p3 =>
                  let b2 := byteN c2 in
                  if negb (between 0x80 0xBF b2) then (RuneError, 1%nat)
                  else if (sz =? 3)%nat
                    then (N.lor (N.shiftl (N.land b0 0x0F) 12)
                            (N.lor (N.shiftl (low6 b1) 6) (low6 b2)), 3%nat)
                  else
                    match p3 with
                    | [] => (RuneError, 1%nat)
                    | c3 :: _ =>
                        let b3 := byteN c3 in
                        if negb (between 0x80 0xBF b3) then (RuneError, 1%nat)
                        else (N.lor (N.shiftl (N.land b0 0x07) 18)
                                (N.lor (N.shiftl (low6 b1) 12)
                                   (N.lor (N.shiftl (low6 b2) 6) (low6 b3))),
                              4%nat)
                    end
              end
        end
  end.

(** fmt's isSpace table. *)
Definition isSpace (r : N) : bool :=
  between 0x0009 0x000D r || (r =? 0x0020) || (r =? 0x0085) || (r =? 0x00A0)
  || (r =? 0x1680) || between 0x2000 0x200A r || between 0x2028 0x2029 r
  || (r =? 0x202F) || (r =? 0x205F) || (r =? 0x3000).

(** The bytes the scanner's buffer receives for a rune (writeRune): the
    sequence itself when it is valid, the encoding of U+FFFD otherwise. *)
Definition rune_bytes (p : bytes) : bytes :=
  let '(r, sz) := DecodeRune p in
  if (r =? RuneError) && (sz =? 1)%nat
  then [ascii_of_N 0xEF; ascii_of_N 0xBF; ascii_of_N 0xBD]
  else firstn sz p.

(** ss.SkipSpace with nlIsSpace = false (Fscanf): spaces are skipped, a
    newline is an error. [None] is the error. *)
Fixpoint SkipSpace_fuel (fuel : nat) (r : bytes) : option bytes :=
  match fuel, r with
  | _, [] => Some []
  | O, _ => Some r
  | S f, _ =>
      let '(c, sz) := DecodeRune r in
      if c =? 10 then None
      else if isSpace c then SkipSpace_fuel f (skipn sz r)
      else Some r
  end.

Definition SkipSpace (r : bytes) : option bytes := SkipSpace_fuel (length r) r.

(** The loop of ss.advance for a space of the format: spaces other than
    newline are consumed, the first other rune is put back. *)
Fixpoint skip_blanks_fuel (fuel : nat) (r : bytes) : bytes :=
  match fuel, r with
  | _, [] => []
  | O, _ => r
  | S f, _ =>
      let '(c, sz) := DecodeRune r in
      if isSpace c && negb (c =? 10) then skip_blanks_fuel f (skipn sz r)
      else r
  end.

(** ss.advance on a single space of the format: the input holds at least
    one space (or is exhausted), and not a newline. *)
Definition format_space (r : bytes) : option bytes :=
  match r with
  | [] => Some []
  | _ =>
      let '(c, sz) := DecodeRune r in
      if negb (isSpace c) then None
      else if c =? 10 then None
      else Some (skip_blanks_fuel (length r) (skipn sz r))
  end.

(** The digits the verb x accepts (hexadecimal digits and the underscore). *)
Definition hex_rune (c : ascii) : bool :=
  match Hex.digit_value c with
  | Some _ => true
  | None => Ascii.eqb c "_"%char
  end.

(** ss.scanNumber under a width: at most [width] runes of the digit set. *)
Fixpoint accept_digits (width : nat) (r : bytes) : bytes * bytes :=
  match width, r with
  | S w, c :: r' =>
      if hex_rune c
      then let '(tok, rest) := accept_digits w r' in (c :: tok, rest)
      else ([], r)
  | _, _ => ([], r)
  end.

(** ss.scanUint for the verb x with a width, into an unsigned integer of
    [bitSize] bits. *)
Definition scanUint (width : nat) (bitSize : N) (r : bytes) : option (N * bytes) :=
  match SkipSpace r with
  | None => None
  | Some r1 =>
      match accept_digits width r1 with
      | ([], _) => None
      | (tok, r2) =>
          match Hex.ParseUint tok with
          | Some v => if v <? 2 ^ bitSize then Some (v, r2) else None
          | None => None
          end
      end
  end.

(** ss.token(true, notSpace): the next word. *)
Fixpoint token_fuel (fuel : nat) (r : bytes) : bytes * bytes :=
  match fuel, r with
  | _, [] => ([], [])
  | O, _ => ([], r)
  | S f, _ =>
      let '(c, sz) := DecodeRune r in
      if isSpace c then ([], r)
      else let '(tok, rest) := token_fuel f (skipn sz r) in
           (rune_bytes r ++ tok, rest)
  end.

(** The verb s: skip spaces, fail at the end of the input, read a word. *)
Definition scanString (r : bytes) : option (bytes * bytes) :=
  match SkipSpace r with
  | None => None
  | Some [] => None
  | Some r1 => Some (token_fuel (length r1) r1)
  end.

(** A character of a word: ASCII and not a space. *)
Definition plain (c : ascii) : bool :=
  (byteN c <? 128) && negb (isSpace (byteN c)).

(** A command name as the format needs it: a non-empty word. *)
Definition word (s : bytes) : bool :=
  match s with
  | [] => false
  | _ => forallb plain s
  end.

(** A serialized payload as json.Marshal produces it: it starts with a
    character of a word and holds no raw newline. *)
Definition compact (p : bytes) : bool :=
  match p with
  | [] => false
  | c :: _ => plain c && forallb (fun x => negb (Ascii.eqb x NL)) p
  end.

End Scan.

(** ** The Command capability

    A command has a stable name and is (de)serializable; the concrete types
    are supplied by the application.

    - [Name] is [Command.Name()].
    - [json_Marshal] is [json.Marshal(command)]; [None] is its error.
    - [reflect_New] is the fresh zero value of the same concrete type that
      [NewCommand] builds by reflection.
    - [json_Decode c b] is [json.NewDecoder(b).Decode(&c)] on a buffer holding
      [b]: the decoded command together with the bytes it leaves unread in
      the buffer; [None] is its error. The decoder has a buffer of its own
      and may read from [b] beyond the value it decodes. *)

Class CommandAPI (Command : Type) := {
  Name : Command -> string;
  json_Marshal : Command -> option bytes;
  reflect_New : Command -> Command;
  json_Decode : Command -> bytes -> option (Command * bytes)
}.

Inductive error :=
| ErrWriterRequired
| ErrMarshal
| ErrInvalid                              (* os.ErrInvalid: nil *os.File *)
| ErrIO                                   (* a failed system call *)
| ErrReaderRequired
| ErrReadChecksum
| ErrExpectedSpace (c : ascii)
| ErrUnexpectedEOF
| ErrInvalidChecksum (expected calculated : N)
| ErrScan
| ErrInstantiate (name : string)
| ErrDecode
| ErrExpectedEOL (c : ascii)
| ErrUnableToRecover
| ErrNotOpen
| ErrEarlierTerm
| ErrEarlierIndex
| ErrCommitIndex (commitIndex requested : N)
| PanicNilCommand                         (* method call on a nil Command *)
| PanicCommandType.                       (* AddCommandType: nil or duplicate *)

(** ** The file system *)

Record World := {
  disk : gmap string bytes;      (* path -> contents *)
  faults : list bool             (* outcome of the next fallible system calls *)
}.

Definition set_disk (d : gmap string bytes) (w : World) : World :=
  {| disk := d; faults := faults w |}.

(** One fallible system call: it fails when the oracle says so. An exhausted
    oracle means no further failure. *)
Definition syscall (w : World) : bool * World :=
  match faults w with
  | [] => (false, w)
  | b :: fs => (b, {| disk := disk w; faults := fs |})
  end.

(** os.Truncate(path, size) on the contents. *)
Definition truncate (size : nat) (data : bytes) : bytes :=
  firstn size data ++ repeat zero (size - length data)%nat.

(** File.Write of package os on a handle opened with O_APPEND; a nil handle returns
    os.ErrInvalid. *)
Definition file_Write (f : option string) (data : bytes) (w : World)
  : option error * World :=
  match f with
  | None => (Some ErrInvalid, w)
  | Some path =>
      let '(fail, w1) := syscall w in
      if fail then (Some ErrIO, w1)
      else (None, set_disk (<[path := default [] (disk w1 !! path) ++ data]> (disk w1)) w1)
  end.

(** bufio.Reader.ReadString('\n'): the line with its delimiter, what follows,
    and whether the input ended before a delimiter. *)
Fixpoint ReadString (r : bytes) : bytes * bytes * bool :=
  match r with
  | [] => ([], [], true)
  | c :: r' =>
      if Ascii.eqb c NL then ([c], r', false)
      else let '(line, rest, eof) := ReadString r' in (c :: line, rest, eof)
  end.

(** An io.Writer as [Encode] receives it: the nil interface, or a *os.File,
    which may itself be a nil pointer ([l.file] of a log that is not open). *)
Inductive Writer :=
| NilWriter
| FileWriter (f : option string).

Section Raft.

Context {Command : Type} `{CommandAPI Command}.

(** *** Typedefs *)

Record LogEntry := {
  index : N;
  term : N;
  command : option Command
}.

Record Log := {
  file : option string;
  entries : list LogEntry;
  commitIndex : N;
  commandTypes : gmap string Command
}.

Definition set_file (f : option string) (l : Log) : Log :=
  {| file := f; entries := entries l; commitIndex := commitIndex l;
     commandTypes := commandTypes l |}.

Definition set_entries (es : list LogEntry) (l : Log) : Log :=
  {| file := file l; entries := es; commitIndex := commitIndex l;
     commandTypes := commandTypes l |}.

Definition set_commitIndex (ci : N) (l : Log) : Log :=
  {| file := file l; entries := entries l; commitIndex := ci;
     commandTypes := commandTypes l |}.

Definition NewLog : Log :=
  {| file := None; entries := []; commitIndex := 0; commandTypes := ∅ |}.

Definition NewLogEntry (i t : N) (c : option Command) : LogEntry :=
  {| index := i; term := t; command := c |}.

(** *** Commands *)

Definition NewCommand (l : Log) (name : string) : option Command :=
  match commandTypes l !! name with
  | None => None
  | Some c => Some (reflect_New c)
  end.

Definition AddCommandType (c : option Command) (l : Log) : error + Log :=
  match c with
  | None => inl PanicCommandType
  | Some c =>
      match commandTypes l !! Name c with
      | Some _ => inl PanicCommandType
      | None =>
          inr {| file := file l; entries := entries l;
                 commitIndex := commitIndex l;
                 commandTypes := <[Name c := c]> (commandTypes l) |}
      end
  end.

(** *** Encoding *)

(** The line written to the temporary buffer:
    Fprintf(&b, "%016x %016x %s %s\n", index, term, name, encodedCommand). *)
Definition payload_line (i t : N) (name : string) (encodedCommand : bytes) : bytes :=
  Hex.fmt_x 16 i ++ [SP] ++ Hex.fmt_x 16 t ++ [SP]
    ++ list_ascii_of_string name ++ [SP] ++ encodedCommand ++ [NL].

Definition Encode (e : LogEntry) (wr : Writer) (w : World) : option error * World :=
  match wr with
  | NilWriter => (Some ErrWriterRequired, w)
  | FileWriter f =>
      match command e with
      | None => (Some PanicNilCommand, w)
      | Some c =>
          match json_Marshal c with
          | None => (Some ErrMarshal, w)
          | Some encodedCommand =>
              let b := payload_line (index e) (term e) (Name c) encodedCommand in
              let checksum := CRC32.ChecksumIEEE b in
              file_Write f (Hex.fmt_x 8 checksum ++ [SP] ++ b) w
          end
      end
  end.

(** *** Decoding *)

Inductive decoded :=
| Decoded (e : LogEntry) (rest : bytes)
| Failed (err : error).

(** Fscanf(b, "%016x %016x %s ", &index, &term, &commandName). *)
Definition scan_header (b : bytes) : option (N * N * bytes * bytes) :=
  match Scan.scanUint 16 64 b with
  | None => None
  | Some (i, b1) =>
  match Scan.format_space b1 with
  | None => None
  | Some b2 =>
  match Scan.scanUint 16 64 b2 with
  | None => None
  | Some (t, b3) =>
  match Scan.format_space b3 with
  | None => None
  | Some b4 =>
  match Scan.scanString b4 with
  | None => None
  | Some (name, b5) =>
  match Scan.format_space b5 with
  | None => None
  | Some b6 => Some (i, t, name, b6)
  end end end end end end.

(** [Decode l r] decodes one entry of the log [l] from the buffered reader
    [r] ([None] is the nil reader). It returns the position reached and
    either the entry with the rest of the input or the error. The entry is
    the one [Open] makes with NewLogEntry(l, 0, 0, nil); after an error no
    caller reads the fields already scanned into it, and they are not
    returned. *)
Definition Decode (l : Log) (r : option bytes) : nat * decoded :=
  match r with
  | None => (0%nat, Failed ErrReaderRequired)
  | Some r =>
  match Scan.scanUint 8 32 r with
  | None => (0%nat, Failed ErrReadChecksum)
  | Some (checksum, r1) =>
  match r1 with
  | [] => (8%nat, Failed (ErrExpectedSpace zero))
  | c :: r2 =>
  if negb (Ascii.eqb c SP) then (8%nat, Failed (ErrExpectedSpace c))
  else
    let '(line, r3, eof) := ReadString r2 in
    let pos := (8 + 1 + length line)%nat in
    if eof then (pos, Failed ErrUnexpectedEOF)
    else
      let bchecksum := CRC32.ChecksumIEEE line in
      if negb (checksum =? bchecksum)
      then (pos, Failed (ErrInvalidChecksum checksum bchecksum))
      else
        match scan_header line with
        | None => (pos, Failed ErrScan)
        | Some (i, t, commandName, b) =>
            let name := string_of_list_ascii commandName in
            match NewCommand l name with
            | None => (pos, Failed (ErrInstantiate name))
            | Some c =>
                match json_Decode c b with
                | None => (pos, Failed ErrDecode)
                | Some (c', b') =>
                    match b' with
                    | [] => (pos, Decoded (NewLogEntry i t (Some c')) r3)
                    | x :: _ => (pos, Failed (ErrExpectedEOL x))
                    end
                end
            end
        end
  end end end.

(** *** State *)

(** The read loop of [Open]: decode entries until the input is exhausted
    or a decode fails. The fuel bounds the number of iterations by the
    length of the input, of which every iteration consumes a part. *)
Fixpoint replay (fuel : nat) (l : Log) (reader : bytes) (lastIndex : nat)
  : Log * nat * option error :=
  match reader, fuel with
  | [], _ => (l, lastIndex, None)
  | _, O => (l, lastIndex, None)
  | _, S fuel' =>
      match Decode l (Some reader) with
      | (_, Failed err) => (l, lastIndex, Some err)
      | (n, Decoded entry reader') =>
          replay fuel'
            (set_entries (entries l ++ [entry]) (set_commitIndex (index entry) l))
            reader' (lastIndex + n)%nat
      end
  end.

(** os.OpenFile(path, O_APPEND|O_CREATE|O_WRONLY, 0600) into [l.file]. *)
Definition OpenFile (path : string) (l : Log) (w : World)
  : option error * Log * World :=
  let '(fail, w1) := syscall w in
  if fail then (Some ErrIO, set_file None l, w1)
  else (None, set_file (Some path) l,
        set_disk (<[path := default [] (disk w1 !! path)]> (disk w1)) w1).

Definition Open (path : string) (l : Log) (w : World)
  : option error * Log * World :=
  match disk w !! path with
  | Some data =>
      let '(fail, w1) := syscall w in                    (* os.Open *)
      if fail then (Some ErrIO, l, w1)
      else
        match replay (length data) l data 0 with
        | (l1, lastIndex, Some _) =>
            let '(fail, w2) := syscall w1 in             (* os.Truncate *)
            if fail then (Some ErrUnableToRecover, l1, w2)
            else OpenFile path l1
                   (set_disk (<[path := truncate lastIndex data]> (disk w2)) w2)
        | (l1, _, None) => OpenFile path l1 w1
        end
  | None => OpenFile path l w
  end.

Definition Close (l : Log) (w : World) : Log * World :=
  (set_entries [] (set_file None l), w).

(** *** Append *)

(** The loop of [SetCommitIndex] over the entries, threading the commit
    index and the file system. *)
Fixpoint commit_loop (f : option string) (idx : N) (es : list LogEntry)
  (ci : N) (w : World) : option error * N * World :=
  match es with
  | [] => (None, ci, w)
  | entry :: es' =>
      if (ci <? index entry) && (index entry <=? idx)
      then
        match Encode entry (FileWriter f) w with
        | (Some err, w1) => (Some err, ci, w1)
        | (None, w1) => commit_loop f idx es' (index entry) w1
        end
      else commit_loop f idx es' ci w
  end.

Definition SetCommitIndex (idx : N) (l : Log) (w : World)
  : option error * Log * World :=
  if idx <? commitIndex l
  then (Some (ErrCommitIndex (commitIndex l) idx), l, w)
  else
    let '(err, ci, w1) := commit_loop (file l) idx (entries l) (commitIndex l) w in
    (err, set_commitIndex ci l, w1).

Definition Append (entry : LogEntry) (l : Log) (w : World)
  : option error * Log * World :=
  match file l with
  | None => (Some ErrNotOpen, l, w)
  | Some _ =>
      match last (entries l) with
      | Some lastEntry =>
          if term entry <? term lastEntry
          then (Some ErrEarlierTerm, l, w)
          else if (index entry =? index lastEntry) && (index entry <=? index lastEntry)
          then (Some ErrEarlierIndex, l, w)
          else (None, set_entries (entries l ++ [entry]) l, w)
      | None => (None, set_entries (entries l ++ [entry]) l, w)
      end
  end.

(** *** Vocabulary of the properties *)

(** What a caller can observe of an entry: its index, its term, the name of
    its command and the serialized payload. *)
Definition view (e : LogEntry)
  : N * N * option string * option bytes :=
  (index e, term e, Name <$> command e, command e ≫= json_Marshal).

(** The bytes [Encode] writes for an entry whose command serializes. *)
Definition encoded (e : LogEntry) : bytes :=
  match command e with
  | Some c =>
      match json_Marshal c with
      | Some p =>
          let b := payload_line (index e) (term e) (Name c) p in
          Hex.fmt_x 8 (CRC32.ChecksumIEEE b) ++ [SP] ++ b
      | None => []
      end
  | None => []
  end.

(** An entry the log [l] can store and read back: its index and term are
    64-bit values, its command type is registered under a name that is a
    word, and the payload serializes compactly and deserializes cleanly,
    the decoder consuming the whole line and returning a command with the
    same name and payload. *)
Definition storable (l : Log) (e : LogEntry) : bool :=
  (index e <? 2 ^ 64) && (term e <? 2 ^ 64) &&
  match command e with
  | None => false
  | Some c =>
      match json_Marshal c, commandTypes l !! Name c with
      | Some p, Some proto =>
          Scan.word (list_ascii_of_string (Name c)) && Scan.compact p &&
          match json_Decode (reflect_New proto) (p ++ [NL]) with
          | Some (c', []) =>
              bool_decide (Name c' = Name c) && bool_decide (json_Marshal c' = Some p)
          | _ => false
          end
      | _, _ => false
      end
  end.

(** The entry [Decode] builds from the line of a storable entry. *)
Definition reread (l : Log) (e : LogEntry) : LogEntry :=
  match command e with
  | Some c =>
      match json_Marshal c, commandTypes l !! Name c with
      | Some p, Some proto =>
          match json_Decode (reflect_New proto) (p ++ [NL]) with
          | Some (c', _) => NewLogEntry (index e) (term e) (Some c')
          | None => e
          end
      | _, _ => e
      end
  | None => e
  end.

(** The log once [Open] has replayed the lines of the entries [es]: they
    follow the entries already in memory, and the commit index is the index
    of the last of them. *)
Definition replayed_index (ci : N) (es : list LogEntry) : N :=
  default ci (index <$> last es).

Definition replayed (l : Log) (es : list LogEntry) : Log :=
  set_entries (entries l ++ map (reread l) es)
    (set_commitIndex (replayed_index (commitIndex l) es) l).

(** The entries of [es] with an index up to [idx]. *)
Definition committed (idx : N) (es : list LogEntry) : list LogEntry :=
  List.filter (fun e => index e <=? idx) es.

(** Trailing bytes left by a crash: an incomplete line, or a complete line
    whose checksum field does not match its contents. *)
Inductive garbage (g : bytes) : Prop :=
| incomplete_line :
    NL ∉ g -> garbage g
| bad_checksum (cs body rest : bytes) (v : N) :
    length cs = 8%nat ->
    Hex.ParseUint cs = Some v ->
    NL ∉ body ->
    v <> CRC32.ChecksumIEEE (body ++ [NL]) ->
    g = cs ++ [SP] ++ body ++ [NL] ++ rest ->
    garbage g.

(** Calls made on one log during its lifetime. *)
Inductive call :=
| CallOpen (path : string)
| CallClose
| CallAppend (entry : LogEntry)
| CallSetCommitIndex (idx : N).

Definition exec (c : call) (s : Log * World) : option error * (Log * World) :=
  match c with
  | CallOpen path => let '(err, l, w) := Open path s.1 s.2 in (err, (l, w))
  | CallClose => (None, Close s.1 s.2)
  | CallAppend entry => let '(err, l, w) := Append entry s.1 s.2 in (err, (l, w))
  | CallSetCommitIndex idx =>
      let '(err, l, w) := SetCommitIndex idx s.1 s.2 in (err, (l, w))
  end.

(** A sequence of calls, whatever each of them returns. *)
Definition run (cs : list call) (s : Log * World) : Log * World :=
  fold_left (fun s c => (exec c s).2) cs s.

(** A sequence of calls all of which succeed; [None] when one fails. *)
Fixpoint run_ok (cs : list call) (s : Log * World) : option (Log * World) :=
  match cs with
  | [] => Some s
  | c :: cs' =>
      match exec c s with
      | (None, s') => run_ok cs' s'
      | (Some _, _) => None
      end
  end.

Definition is_open_call (c : call) : bool :=
  match c with
  | CallOpen _ => true
  | _ => false
  end.

End Raft.

Arguments LogEntry : clear implicits.
Arguments Log : clear implicits.
Arguments decoded : clear implicits.
Arguments call : clear implicits.

(** ** encoding/json: the stream decoder

    [json.NewDecoder(b).Decode(&c)] does not read its source value by value:
    it fills a buffer of its own from the source, in reads of at least 512
    bytes, until its scanner has seen a complete value, and keeps whatever
    it has read beyond that value. *)

Module Json.

(** What the scanner finds in the bytes buffered so far: a value of [n]
    bytes, the beginning of a value, or a syntax error. *)
Inductive scan :=
| Complete (n : nat)
| Incomplete
| Invalid.

Definition minRead : nat := 512.

(** Decoder.readValue with Decoder.refill: the value and what is left in the
    source; [None] is an error (bad syntax, or the source ends in a value). *)
Fixpoint readValue (scanner : bytes -> scan) (fuel : nat) (buf : bytes)
  (cap : nat) (src : bytes) : option (bytes * bytes) :=
  match scanner buf with
  | Complete n => Some (firstn n buf, src)
  | Invalid => None
  | Incomplete =>
      match fuel, src with
      | S f, _ :: _ =>
          let cap' :=
            if (cap - length buf <? minRead)%nat then (2 * cap + minRead)%nat else cap in
          let n := (cap' - length buf)%nat in
          readValue scanner f (buf ++ firstn n src) cap' (skipn n src)
      | _, _ => None
      end
  end.

Definition Decode (scanner : bytes -> scan) (src : bytes) : option (bytes * bytes) :=
  readValue scanner (length src) [] 0%nat src.

End Json.

(** ** A command set of an application

    Two command types, as a key-value store could register them: "noop",
    an empty struct, serialized as the empty object, and "put", a struct
    with one text field v, whose serializer accepts lower-case letters and
    digits only. *)

Module Demo.

Inductive cmd :=
| Noop
| Put (v : bytes).

Definition QUOTE : ascii := "034"%char.

Definition la (s : string) : bytes := list_ascii_of_string s.

Definition alnum (c : ascii) : bool :=
  let b := byteN c in
  ((48 <=? b) && (b <=? 57)) || ((97 <=? b) && (b <=? 122)).

Definition cmd_Name (c : cmd) : string :=
  match c with
  | Noop => "noop"
  | Put _ => "put"
  end.

Definition cmd_Marshal (c : cmd) : option bytes :=
  match c with
  | Noop => Some (la "{}")
  | Put v =>
      if forallb alnum v
      then Some (la "{" ++ [QUOTE] ++ la "v" ++ [QUOTE] ++ la ":" ++ [QUOTE] ++ v
                   ++ [QUOTE] ++ la "}")
      else None
  end.

Definition cmd_New (c : cmd) : cmd :=
  match c with
  | Noop => Noop
  | Put _ => Put []
  end.

(** JSON white space. *)
Definition ws (c : ascii) : bool :=
  let b := byteN c in (b =? 32) || (b =? 9) || (b =? 10) || (b =? 13).

(** The scanner, restricted to the two objects the command set uses. *)
Inductive state :=
| BeforeObject | InObject | InKey | AfterKey | BeforeColon | BeforeValue
| InValue | AfterValue.

Fixpoint scan_from (s : state) (n : nat) (b : bytes) : Json.scan :=
  match b with
  | [] => Json.Incomplete
  | c :: b' =>
      match s with
      | BeforeObject =>
          if ws c then scan_from BeforeObject (S n) b'
          else if Ascii.eqb c "{" then scan_from InObject (S n) b'
          else Json.Invalid
      | InObject =>
          if ws c then scan_from InObject (S n) b'
          else if Ascii.eqb c "}" then Json.Complete (S n)
          else if Ascii.eqb c QUOTE then scan_from InKey (S n) b'
          else Json.Invalid
      | InKey =>
          if Ascii.eqb c "v" then scan_from AfterKey (S n) b' else Json.Invalid
      | AfterKey =>
          if Ascii.eqb c QUOTE then scan_from BeforeColon (S n) b' else Json.Invalid
      | BeforeColon =>
          if ws c then scan_from BeforeColon (S n) b'
          else if Ascii.eqb c ":" then scan_from BeforeValue (S n) b'
          else Json.Invalid
      | BeforeValue =>
          if ws c then scan_from BeforeValue (S n) b'
          else if Ascii.eqb c QUOTE then scan_from InValue (S n) b'
          else Json.Invalid
      | InValue =>
          if alnum c then scan_from InValue (S n) b'
          else if Ascii.eqb c QUOTE then scan_from AfterValue (S n) b'
          else Json.Invalid
      | AfterValue =>
          if ws c then scan_from AfterValue (S n) b'
          else if Ascii.eqb c "}" then Json.Complete (S n)
          else Json.Invalid
      end
  end.

Definition scanner (b : bytes) : Json.scan := scan_from BeforeObject 0 b.

(** The text of the field v in a scanned object: what stands between the
    third and the fourth quote. *)
Fixpoint after_quotes (k : nat) (b : bytes) : bytes :=
  match k, b with
  | O, _ => b
  | _, [] => []
  | S k', c :: b' => if Ascii.eqb c QUOTE then after_quotes k' b' else after_quotes k b'
  end.

Fixpoint until_quote (b : bytes) : bytes :=
  match b with
  | [] => []
  | c :: b' => if Ascii.eqb c QUOTE then [] else c :: until_quote b'
  end.

(** Storing a scanned object into a fresh command of the registered type. *)
Definition cmd_Unmarshal (c : cmd) (value : bytes) : cmd :=
  match c with
  | Noop => Noop
  | Put _ => Put (until_quote (after_quotes 3 value))
  end.

Definition cmd_Decode (c : cmd) (b : bytes) : option (cmd * bytes) :=
  match Json.Decode scanner b with
  | Some (value, rest) => Some (cmd_Unmarshal c value, rest)
  | None => None
  end.

#[global] Instance cmd_api : CommandAPI cmd := {|
  Name := cmd_Name;
  json_Marshal := cmd_Marshal;
  reflect_New := cmd_New;
  json_Decode := cmd_Decode
|}.

(** A new log with both command types registered. *)
Definition register (c : cmd) (l : Log cmd) : Log cmd :=
  match AddCommandType (Some c) l with
  | inr l' => l'
  | inl _ => l
  end.

Definition log0 : Log cmd := register (Put []) (register Noop NewLog).

Definition world0 : World := {| disk := ∅; faults := [] |}.

Definition noop (i t : N) : LogEntry cmd := NewLogEntry i t (Some Noop).

(** The scenario of the specification: three entries, of which two are
    committed. *)
Definition path : string := "log".

Definition three : list (LogEntry cmd) := [noop 1 1; noop 2 1; noop 3 2].

Definition appended : Log cmd * World :=
  (set_entries three (set_file (Some path) log0),
   {| disk := <[path := []]> ∅; faults := [] |}).

(** A file with two entries and the beginning of a third line. *)
Definition two : list (LogEntry cmd) := [noop 1 1; noop 2 1].

Definition torn : bytes := la "d1a0f5c4 00000000000".

Definition crashed : World :=
  {| disk := <[path := concat (map encoded two) ++ torn]> ∅; faults := [] |}.

(** A line with a valid checksum and two bytes between the serialized
    command and the newline. *)
Definition dirty_body : bytes :=
  la "0000000000000001 0000000000000001 noop {}xx" ++ [NL].

Definition dirty_line : bytes :=
  Hex.fmt_x 8 (CRC32.ChecksumIEEE dirty_body) ++ [SP] ++ dirty_body.

(** An entry whose serialized command is an object of exactly 512 bytes. *)
Definition wide : LogEntry cmd :=
  NewLogEntry 1 1 (Some (Put (repeat "a"%char 504))).

(** One log used on two paths in turn. *)
Definition two_files : list (call cmd) :=
  [CallOpen "a"; CallAppend (noop 1 1); CallAppend (noop 2 1);
   CallSetCommitIndex 1; CallClose;
   CallOpen "b"; CallAppend (noop 1 1); CallAppend (noop 2 1);
   CallSetCommitIndex 2; CallClose].

(** A log that was opened and closed again after committing its entries. *)
Definition closed : Log cmd * World :=
  run [CallOpen path; CallAppend (noop 1 1); CallAppend (noop 2 1);
       CallSetCommitIndex 2; CallClose] (log0, world0).

End Demo.

(** ** Further vocabulary: entries on file, accepted sequences *)

Section RaftOrder.

Context {Command : Type} `{CommandAPI Command}.

(** An entry [Encode] can format and [Decode] can scan back up to the
    command name: 64-bit index and term, a command that serializes
    compactly and whose name is a word. Nothing is asked of the registry. *)
Definition encodable (e : LogEntry Command) : bool :=
  (index e <? 2 ^ 64) && (term e <? 2 ^ 64) &&
  match command e with
  | None => false
  | Some c =>
      match json_Marshal c with
      | Some p => Scan.word (list_ascii_of_string (Name c)) && Scan.compact p
      | None => false
      end
  end.

(** Each entry has a term not below that of the entry before it, and
    another index than the entry before it. *)
Definition ordered (es : list (LogEntry Command)) : Prop :=
  forall i e1 e2,
    es !! i = Some e1 -> es !! S i = Some e2 ->
    term e1 <= term e2 /\ index e2 <> index e1.

(** The test of [Append] against the entry before, run along a sequence. *)
Fixpoint accepted (prev : option (LogEntry Command)) (es : list (LogEntry Command))
  : bool :=
  match es with
  | [] => true
  | e :: es' =>
      match prev with
      | Some p => negb (term e <? term p) && negb (index e =? index p)
      | None => true
      end && accepted (Some e) es'
  end.

(** Indices strictly increasing along a sequence. *)
Fixpoint ascending (es : list (LogEntry Command)) : Prop :=
  match es with
  | [] => True
  | e :: es' => Forall (fun x => index e < index x) es' /\ ascending es'
  end.

(** The file at [path] holds the lines of increasing entries, none above the
    commit index of the log, which is open on that path. *)
Definition file_in_order (path : string) (s : Log Command * World) : Prop :=
  file s.1 = Some path /\
  exists fs,
    disk s.2 !! path = Some (concat (map encoded fs)) /\
    ascending fs /\
    Forall (fun e => index e <= commitIndex s.1) fs.

Definition appends_or_commits (c : call Command) : bool :=
  match c with
  | CallAppend _ | CallSetCommitIndex _ => true
  | _ => false
  end.

End RaftOrder.

(** ** Further scenarios on the command set of the application *)

Module Scenario.
Import Demo.

(** A log that knows the command type noop only. *)
Definition noop_only : Log cmd := register Noop NewLog.

(** A file of two entries, and the same file with an entry of type put
    between them. *)
Definition stored : World :=
  {| disk := <[path := concat (map encoded two)]> ∅; faults := [] |}.

Definition put (i t : N) (v : string) : LogEntry cmd :=
  NewLogEntry i t (Some (Put (la v))).

Definition mixed : World :=
  {| disk := <[path := encoded (noop 1 1) ++ encoded (put 2 1 "ab")
                         ++ encoded (noop 3 1)]> ∅;
     faults := [] |}.


(** An open log whose second entry holds a text the serializer refuses. *)
Definition unserializable : Log cmd * World :=
  (set_entries [noop 1 1; put 2 1 "a b"; noop 3 1] (set_file (Some path) log0),
   {| disk := <[path := []]> ∅; faults := [] |}).

(** Calls that commit, append and commit again. *)
Definition more_calls : list (call cmd) :=
  [CallSetCommitIndex 2; CallAppend (noop 4 2); CallSetCommitIndex 4].

End Scenario.

(** * Properties *)

(** ** The checksum is a 32-bit value *)

Module CRC32Facts.
Import CRC32.

Definition u32 (n : N) : Prop := n < 2 ^ 32.

Lemma lxor_u32 a b : u32 a -> u32 b -> u32 (N.lxor a b).
Proof.
  unfold u32. intros Ha Hb.
  destruct (N.eq_dec (N.lxor a b) 0) as [->|Hne]; [reflexivity|].
  apply N.log2_lt_pow2; [lia|].
  eapply N.le_lt_trans; [apply N.log2_lxor|].
  apply N.max_lub_lt.
  - destruct (N.eq_dec a 0) as [->|]; [reflexivity|]. apply N.log2_lt_pow2; lia.
  - destruct (N.eq_dec b 0) as [->|]; [reflexivity|]. apply N.log2_lt_pow2; lia.
Qed.

Lemma shiftr_u32 a : u32 a -> u32 (N.shiftr a 1).
Proof.
  unfold u32. intros Ha. rewrite N.shiftr_div_pow2.
  eapply N.le_lt_trans; [|exact Ha]. apply N.Div0.div_le_upper_bound.
  change (2 ^ 1) with 2. lia.
Qed.

Lemma shift_u32 a : u32 a -> u32 (shift a).
Proof.
  intros Ha. unfold shift. destruct (N.testbit a 0).
  - apply lxor_u32; [by apply shiftr_u32 | reflexivity].
  - by apply shiftr_u32.
Qed.

Lemma byteN_lt c : byteN c < 256.
Proof. apply N_ascii_bounded. Qed.

Lemma update_u32 a c : u32 a -> u32 (update a c).
Proof.
  intros Ha. unfold update.
  assert (Hx : u32 (N.lxor a (byteN c))).
  { apply lxor_u32; [done|]. pose proof (byteN_lt c). unfold u32. lia. }
  simpl. do 8 apply shift_u32. exact Hx.
Qed.

Lemma fold_update_u32 data a : u32 a -> u32 (fold_left update data a).
Proof.
  revert a. induction data as [|c data IH]; intros a Ha; simpl; [done|].
  apply IH, update_u32, Ha.
Qed.

Lemma ChecksumIEEE_u32 data : ChecksumIEEE data < 2 ^ 32.
Proof.
  unfold ChecksumIEEE. apply lxor_u32; [|reflexivity].
  apply fold_update_u32. reflexivity.
Qed.
End CRC32Facts.

(** ** Formatting and parsing hexadecimal fields *)

Module HexFacts.
Import Hex.

Lemma below_16 (P : N -> Prop) :
  P 0 -> P 1 -> P 2 -> P 3 -> P 4 -> P 5 -> P 6 -> P 7 -> P 8 -> P 9 ->
  P 10 -> P 11 -> P 12 -> P 13 -> P 14 -> P 15 ->
  forall d, d < 16 -> P d.
Proof.
  intros H0 H1 H2 H3 H4 H5 H6 H7 H8 H9 H10 H11 H12 H13 H14 H15 d Hd.
  assert (Hk : (N.to_nat d < 16)%nat) by lia.
  rewrite <- (N2Nat.id d).
  destruct (N.to_nat d) as [|[|[|[|[|[|[|[|[|[|[|[|[|[|[|[|k]]]]]]]]]]]]]]]];
    try assumption; lia.
Qed.

Lemma digit_value_digit d : d < 16 -> digit_value (digit d) = Some d.
Proof. revert d. apply below_16; reflexivity. Qed.

Lemma digit_lower d : d < 16 -> lower_hex (digit d).
Proof. revert d. apply below_16; unfold lower_hex; simpl; tauto. Qed.

Lemma parse_from_app acc s1 s2 :
  parse_from acc (s1 ++ s2) =
  match parse_from acc s1 with
  | Some a => parse_from a s2
  | None => None
  end.
Proof.
  revert acc. induction s1 as [|c s1 IH]; intros acc; simpl; [done|].
  destruct (digit_value c); [apply IH | done].
Qed.

Lemma parse_from_digits fuel : forall n,
  n < 16 ^ N.of_nat fuel -> parse_from 0 (digits_fuel fuel n) = Some n.
Proof.
  induction fuel as [|f IH]; intros n Hn.
  - simpl in *. f_equal. lia.
  - cbn [digits_fuel]. destruct (N.ltb_spec n 16) as [Hlt|Hge].
    + cbn [parse_from]. rewrite digit_value_digit by done. f_equal; lia.
    + rewrite parse_from_app, IH.
      * cbn [parse_from]. rewrite digit_value_digit by (apply N.mod_lt; lia).
        f_equal. pose proof (N.div_mod n 16). lia.
      * rewrite Nat2N.inj_succ, N.pow_succ_r' in Hn.
        apply N.Div0.div_lt_upper_bound. lia.
Qed.

Lemma lt_pow16_log2 n : n < 16 ^ N.of_nat (S (N.to_nat (N.log2 n))).
Proof.
  rewrite Nat2N.inj_succ, N2Nat.id.
  destruct (N.eq_dec n 0) as [->|Hn]; [reflexivity|].
  eapply N.lt_le_trans; [apply N.log2_spec; lia|].
  apply N.pow_le_mono_l. lia.
Qed.

Lemma parse_from_zeros k s : parse_from 0 (repeat "0"%char k ++ s) = parse_from 0 s.
Proof. induction k as [|k IH]; simpl; [done|]. exact IH. Qed.

Lemma digits_fuel_nonempty f n : digits_fuel (S f) n <> [].
Proof.
  cbn [digits_fuel]. destruct (n <? 16); [done|].
  intros Happ. apply app_eq_nil in Happ as [_ ?]. done.
Qed.

Lemma parse_from_fmt_x w n : parse_from 0 (fmt_x w n) = Some n.
Proof.
  unfold fmt_x. rewrite parse_from_zeros.
  apply parse_from_digits, lt_pow16_log2.
Qed.

Lemma fmt_x_nonempty w n : fmt_x w n <> [].
Proof.
  unfold fmt_x, digits. intros Happ. apply app_eq_nil in Happ as [_ Hd].
  by apply digits_fuel_nonempty in Hd.
Qed.

Lemma ParseUint_fmt_x w n : ParseUint (fmt_x w n) = Some n.
Proof.
  unfold ParseUint. pose proof (fmt_x_nonempty w n).
  destruct (fmt_x w n) eqn:E; [done|]. rewrite <- E. apply parse_from_fmt_x.
Qed.

Lemma length_digits_fuel fuel : forall n w,
  n < 16 ^ N.of_nat w -> (0 < w)%nat -> (length (digits_fuel fuel n) <= w)%nat.
Proof.
  induction fuel as [|f IH]; intros n w Hn Hw; simpl; [lia|].
  destruct (N.ltb_spec n 16) as [Hlt|Hge]; simpl; [lia|].
  rewrite length_app. simpl.
  destruct w as [|w]; [lia|].
  rewrite Nat2N.inj_succ, N.pow_succ_r' in Hn.
  destruct w as [|w]; [simpl in Hn; lia|].
  assert (length (digits_fuel f (n / 16)) <= S w)%nat; [|lia].
  apply IH; [|lia]. apply N.Div0.div_lt_upper_bound. lia.
Qed.

Lemma length_fmt_x w n : n < 16 ^ N.of_nat w -> (0 < w)%nat -> length (fmt_x w n) = w.
Proof.
  intros Hn Hw. unfold fmt_x. rewrite length_app, repeat_length.
  pose proof (length_digits_fuel (S (N.to_nat (N.log2 n))) n w Hn Hw).
  unfold digits. lia.
Qed.

Lemma digits_fuel_lower fuel : forall n, Forall lower_hex (digits_fuel fuel n).
Proof.
  induction fuel as [|f IH]; intros n; simpl; [constructor|].
  destruct (N.ltb_spec n 16) as [Hlt|Hge].
  - constructor; [by apply digit_lower | constructor].
  - apply Forall_app. split; [apply IH|].
    constructor; [|constructor]. apply digit_lower, N.mod_lt. lia.
Qed.

Lemma fmt_x_lower w n : Forall lower_hex (fmt_x w n).
Proof.
  unfold fmt_x. apply Forall_app. split.
  - apply Forall_forall. intros c Hc. apply list_elem_of_In, repeat_spec in Hc.
    subst c. unfold lower_hex. simpl. tauto.
  - apply digits_fuel_lower.
Qed.

Lemma value_parse_from s : forall acc v,
  parse_from acc s = Some v ->
  fold_left (fun a c => 16 * a + default 0 (digit_value c)) s acc = v.
Proof.
  induction s as [|c s IH]; intros acc v; simpl.
  - congruence.
  - destruct (digit_value c) as [d|]; [|done]. simpl. apply IH.
Qed.

Lemma value_fmt_x w n : value (fmt_x w n) = n.
Proof. apply value_parse_from, parse_from_fmt_x. Qed.

Lemma lower_hex_digit_value c : lower_hex c -> is_Some (digit_value c).
Proof.
  unfold lower_hex. simpl.
  intros Hc. repeat (destruct Hc as [<-|Hc]; [by eexists|]). done.
Qed.

Lemma lower_hex_not_space c : lower_hex c -> c <> SP /\ c <> NL.
Proof.
  unfold lower_hex. simpl.
  intros Hc. repeat (destruct Hc as [<-|Hc]; [done|]). done.
Qed.
End HexFacts.


(** ** The scanner on well-formed fields *)

Module ScanFacts.
Import Scan.

Lemma DecodeRune_ascii c r : byteN c < 128 -> DecodeRune (c :: r) = (byteN c, 1%nat).
Proof.
  intros Hc. unfold DecodeRune.
  destruct (N.ltb_spec (byteN c) 128); [done|lia].
Qed.

Lemma DecodeRune_plain c r : plain c = true -> DecodeRune (c :: r) = (byteN c, 1%nat).
Proof.
  unfold plain. intros [Hc _]%andb_prop.
  apply DecodeRune_ascii. by apply N.ltb_lt.
Qed.

Lemma plain_not_space c : plain c = true -> isSpace (byteN c) = false.
Proof. unfold plain. intros [_ Hc]%andb_prop. by apply negb_true_iff. Qed.

Lemma plain_not_10 c : plain c = true -> (byteN c =? 10) = false.
Proof.
  intros Hc. apply plain_not_space in Hc.
  destruct (N.eqb_spec (byteN c) 10) as [E|]; [|done].
  rewrite E in Hc. done.
Qed.

Lemma plain_neq c : plain c = true -> c <> SP /\ c <> NL.
Proof. intros Hc. split; intros ->; vm_compute in Hc; discriminate. Qed.

Lemma SkipSpace_plain c r : plain c = true -> SkipSpace (c :: r) = Some (c :: r).
Proof.
  intros Hc. unfold SkipSpace. cbn [length SkipSpace_fuel].
  rewrite DecodeRune_plain by done.
  by rewrite plain_not_10, plain_not_space.
Qed.

(** Resolve the comparisons of a goal whose outcome the context fixes. *)
Ltac settle_tests :=
  repeat match goal with
    | |- context [N.leb ?a ?b] =>
        first [ rewrite (proj2 (N.leb_le a b)) by lia
              | rewrite (proj2 (N.leb_gt a b)) by lia ]
    | |- context [N.ltb ?a ?b] =>
        first [ rewrite (proj2 (N.ltb_lt a b)) by lia
              | rewrite (proj2 (N.ltb_ge a b)) by lia ]
    | |- context [N.eqb ?a ?b] =>
        first [ rewrite (proj2 (N.eqb_eq a b)) by lia
              | rewrite (proj2 (N.eqb_neq a b)) by lia ]
    end.

Lemma printable_plain c : 33 <= byteN c -> byteN c < 127 -> plain c = true.
Proof.
  intros Hlo Hhi. unfold plain, isSpace, between. settle_tests. reflexivity.
Qed.

Lemma digit_value_range c d :
  Hex.digit_value c = Some d -> 48 <= byteN c <= 102 /\ d < 16.
Proof.
  unfold Hex.digit_value.
  destruct (N.leb_spec 48 (byteN c)), (N.leb_spec (byteN c) 57); simpl;
    try (intros; simplify_eq; lia);
  destruct (N.leb_spec 97 (byteN c)), (N.leb_spec (byteN c) 102); simpl;
    try (intros; simplify_eq; lia);
  destruct (N.leb_spec 65 (byteN c)), (N.leb_spec (byteN c) 70); simpl;
    intros; simplify_eq; lia.
Qed.

Lemma digit_value_plain c d : Hex.digit_value c = Some d -> plain c = true.
Proof. intros [Hc _]%digit_value_range. apply printable_plain; lia. Qed.

Lemma digit_value_hex_rune c d : Hex.digit_value c = Some d -> hex_rune c = true.
Proof. unfold hex_rune. by intros ->. Qed.

Lemma accept_digits_exact tok : forall w rest,
  Forall (fun c => hex_rune c = true) tok -> length tok = w ->
  accept_digits w (tok ++ rest) = (tok, rest).
Proof.
  induction tok as [|c tok IH]; intros w rest Hall Hlen; simpl in *.
  - subst w. by destruct rest.
  - subst w. inversion Hall as [|? ? Hc Htok]; subst. simpl.
    rewrite Hc, (IH (length tok) rest Htok eq_refl). done.
Qed.

Lemma parse_from_all s : forall acc v,
  Hex.parse_from acc s = Some v -> Forall (fun c => is_Some (Hex.digit_value c)) s.
Proof.
  induction s as [|c s IH]; intros acc v Hp; [constructor|].
  simpl in Hp. destruct (Hex.digit_value c) as [d|] eqn:Hd; [|done].
  constructor; [by eexists | by eapply IH].
Qed.

Lemma parse_from_bound s : forall acc v k,
  Hex.parse_from acc s = Some v -> acc < 16 ^ k -> v < 16 ^ (k + N.of_nat (length s)).
Proof.
  induction s as [|c s IH]; intros acc v k Hp Hacc; simpl in Hp.
  - injection Hp as <-. simpl. by rewrite N.add_0_r.
  - destruct (Hex.digit_value c) as [d|] eqn:Hd; [|done].
    assert (Hd16 : d < 16) by (apply digit_value_range in Hd; tauto).
    apply (IH _ _ (k + 1)) in Hp.
    + cbn [length]. rewrite Nat2N.inj_succ.
      replace (k + N.succ (N.of_nat (length s))) with (k + 1 + N.of_nat (length s)) by lia.
      done.
    + rewrite N.pow_add_r. change (16 ^ 1) with 16. lia.
Qed.

(** Scanning a checksum or a number of exactly [w] hexadecimal digits. *)
Lemma scanUint_digits w bits tok v rest :
  (0 < w)%nat -> length tok = w -> Hex.ParseUint tok = Some v -> v < 2 ^ bits ->
  scanUint w bits (tok ++ rest) = Some (v, rest).
Proof.
  intros Hw Hlen Hp Hv.
  destruct tok as [|c tok]; [simpl in Hlen; lia|].
  assert (Hall := Hp). unfold Hex.ParseUint in Hall. apply parse_from_all in Hall.
  assert (Hc : plain c = true).
  { inversion Hall as [|? ? [d Hd] _]; subst. by eapply digit_value_plain. }
  unfold scanUint. rewrite <- app_comm_cons, SkipSpace_plain by done.
  rewrite app_comm_cons, accept_digits_exact; [| |done].
  - rewrite Hp. by apply N.ltb_lt in Hv as ->.
  - eapply Forall_impl; [exact Hall|]. intros x [d Hd]. by eapply digit_value_hex_rune.
Qed.

Lemma scanUint_fmt_x w bits n rest :
  (0 < w)%nat -> n < 16 ^ N.of_nat w -> n < 2 ^ bits ->
  scanUint w bits (Hex.fmt_x w n ++ rest) = Some (n, rest).
Proof.
  intros Hw Hn Hb. apply scanUint_digits; try done.
  - by apply HexFacts.length_fmt_x.
  - apply HexFacts.ParseUint_fmt_x.
Qed.
Lemma DecodeRune_SP r : DecodeRune (SP :: r) = (32, 1%nat).
Proof. reflexivity. Qed.

Lemma format_space_plain c r :
plain c = true -> format_space (SP :: c :: r) = Some (c :: r).
Proof.
intros Hc. unfold format_space. rewrite DecodeRune_SP.
change (isSpace 32) with true. change (32 =? 10) with false.
cbn [negb skipn length skip_blanks_fuel].
rewrite DecodeRune_plain by done.
by rewrite plain_not_space.
Qed.

Lemma rune_bytes_plain c r : plain c = true -> rune_bytes (c :: r) = [c].
Proof.
intros Hc. unfold rune_bytes. rewrite DecodeRune_plain by done.
assert (Hlt : byteN c < 128).
{ unfold plain in Hc. apply andb_prop in Hc as [Hc _]. by apply N.ltb_lt. }
destruct (N.eqb_spec (byteN c) RuneError) as [E|_]; [|done].
unfold RuneError in E. lia.
Qed.

Lemma token_fuel_word name : forall fuel rest,
(length name < fuel)%nat -> forallb plain name = true ->
token_fuel fuel (name ++ SP :: rest) = (name, SP :: rest).
Proof.
induction name as [|c name IH]; intros fuel rest Hfuel Hall.
- destruct fuel as [|f]; [simpl in Hfuel; lia|]. reflexivity.
- destruct fuel as [|f]; [simpl in Hfuel; lia|].
  simpl in Hall. apply andb_prop in Hall as [Hc Hall].
  rewrite <- app_comm_cons. cbn [token_fuel].
  rewrite DecodeRune_plain, plain_not_space by done.
  change (drop 1 (c :: name ++ SP :: rest)) with (name ++ SP :: rest).
  rewrite IH; [|simpl in Hfuel; lia|done].
  by rewrite rune_bytes_plain.
Qed.

Lemma scanString_word name rest :
word name = true ->
scanString (name ++ SP :: rest) = Some (name, SP :: rest).
Proof.
unfold word. destruct name as [|c name]; [done|]. intros Hall.
assert (Hc : plain c = true) by (simpl in Hall; by apply andb_prop in Hall as [? _]).
unfold scanString. rewrite <- app_comm_cons, SkipSpace_plain by done.
rewrite app_comm_cons. f_equal. apply token_fuel_word; [|done].
rewrite length_app. simpl. lia.
Qed.

(** What the scanner leaves is a suffix of what it was given. *)
Lemma SkipSpace_fuel_suffix fuel : forall r r',
SkipSpace_fuel fuel r = Some r' -> r' `suffix_of` r.
Proof.
induction fuel as [|f IH]; intros r r' Hs.
- destruct r; simpl in Hs; by simplify_eq.
- destruct r as [|c r]; [simpl in Hs; by simplify_eq|].
  cbn [SkipSpace_fuel] in Hs.
  destruct (DecodeRune (c :: r)) as [x sz].
  destruct (x =? 10); [done|].
  destruct (isSpace x); [|by simplify_eq].
  apply IH in Hs. etrans; [exact Hs|]. apply suffix_drop.
Qed.

Lemma accept_digits_app w : forall r tok rest,
accept_digits w r = (tok, rest) -> r = tok ++ rest.
Proof.
induction w as [|w IH]; intros r tok rest Ha.
- destruct r; simpl in Ha; by simplify_eq.
- destruct r as [|c r]; [simpl in Ha; by simplify_eq|].
  simpl in Ha. destruct (hex_rune c); [|by simplify_eq].
  destruct (accept_digits w r) as [tok' rest'] eqn:E.
  simplify_eq. apply IH in E. by subst r.
Qed.

Lemma scanUint_suffix w bits r v r' :
scanUint w bits r = Some (v, r') -> r' `suffix_of` r.
Proof.
unfold scanUint. destruct (SkipSpace r) as [r1|] eqn:Hs; [|done].
apply SkipSpace_fuel_suffix in Hs.
destruct (accept_digits w r1) as [tok r2] eqn:Ha.
apply accept_digits_app in Ha. intros Hm.
assert (r2 = r') as <-.
{ destruct tok; [done|]. destruct (Hex.ParseUint (a :: tok)); [|done].
  destruct (_ <? _); by simplify_eq. }
etrans; [|exact Hs]. subst r1. by apply suffix_app_r.
Qed.

Lemma suffix_not_elem (x : ascii) (r r' : bytes) : r' `suffix_of` r -> x ∉ r -> x ∉ r'.
Proof. intros [k ->] Hx Hin. apply Hx, elem_of_app. by right. Qed.

(** Reading a line. *)
Lemma ReadString_line line rest :
NL ∉ line -> ReadString (line ++ NL :: rest) = (line ++ [NL], rest, false).
Proof.
induction line as [|c line IH]; intros Hnl; simpl.
- reflexivity.
- apply not_elem_of_cons in Hnl as [Hc Hnl].
  destruct (Ascii.eqb_spec c NL) as [->|_]; [done|]. by rewrite IH.
Qed.

Lemma ReadString_eof r : NL ∉ r -> ReadString r = (r, [], true).
Proof.
induction r as [|c r IH]; intros Hnl; simpl; [done|].
apply not_elem_of_cons in Hnl as [Hc Hnl].
destruct (Ascii.eqb_spec c NL) as [->|_]; [done|]. by rewrite IH.
Qed.

Lemma forallb_plain_no_NL s : forallb plain s = true -> NL ∉ s.
Proof.
induction s as [|c s IH]; simpl; [intros _; apply not_elem_of_nil|].
intros [Hc Hs]%andb_prop. apply not_elem_of_cons. split; [|by apply IH].
intros <-. done.
Qed.

Lemma compact_no_NL p : compact p = true -> NL ∉ p.
Proof.
unfold compact. destruct p as [|c p]; [done|]. intros [_ Hall]%andb_prop.
revert Hall. generalize (c :: p). intros s. induction s as [|x s IH]; simpl.
- intros _. apply not_elem_of_nil.
- intros [Hx Hs]%andb_prop. apply not_elem_of_cons. split; [|by apply IH].
  intros <-. done.
Qed.

Lemma lower_hex_no_NL s : Forall Hex.lower_hex s -> NL ∉ s.
Proof.
intros Hall Hin. rewrite Forall_forall in Hall. apply Hall in Hin.
by apply HexFacts.lower_hex_not_space in Hin as [_ ?].
Qed.

(** Every rune read from a non-empty input takes at least one byte, so
    the loops of the scanner, whose fuel is the length of the input, never
    run out of it. *)
Lemma DecodeRune_size c r : (1 <= (DecodeRune (c :: r)).2)%nat.
Proof.
unfold DecodeRune. destruct (byteN c <? 128); [simpl; lia|].
destruct (lead (byteN c)) as [[sz lo] hi].
destruct sz as [|[|sz]]; destruct r as [|c1 [|c2 [|c3 r]]]; simpl;
  repeat match goal with
         | |- context [if ?b then _ else _] => destruct b; simpl
         end; lia.
Qed.

Lemma SkipSpace_fuel_enough : forall f1 f2 r,
(length r <= f1)%nat -> (length r <= f2)%nat ->
SkipSpace_fuel f1 r = SkipSpace_fuel f2 r.
Proof.
induction f1 as [|f1 IH]; intros f2 r H1 H2.
- destruct r; [|simpl in H1; lia]. by destruct f2.
- destruct r as [|c r]; [by destruct f2|].
  destruct f2 as [|f2]; [simpl in H2; lia|].
  cbn [SkipSpace_fuel]. pose proof (DecodeRune_size c r) as Hsz.
  destruct (DecodeRune (c :: r)) as [x sz]. simpl in Hsz.
  destruct (x =? 10); [done|]. destruct (isSpace x); [|done].
  apply IH; rewrite length_skipn; simpl in *; lia.
Qed.

Lemma skip_blanks_fuel_enough : forall f1 f2 r,
(length r <= f1)%nat -> (length r <= f2)%nat ->
skip_blanks_fuel f1 r = skip_blanks_fuel f2 r.
Proof.
induction f1 as [|f1 IH]; intros f2 r H1 H2.
- destruct r; [|simpl in H1; lia]. by destruct f2.
- destruct r as [|c r]; [by destruct f2|].
  destruct f2 as [|f2]; [simpl in H2; lia|].
  cbn [skip_blanks_fuel]. pose proof (DecodeRune_size c r) as Hsz.
  destruct (DecodeRune (c :: r)) as [x sz]. simpl in Hsz.
  destruct (isSpace x && negb (x =? 10)); [|done].
  apply IH; rewrite length_skipn; simpl in *; lia.
Qed.

Lemma token_fuel_enough : forall f1 f2 r,
(length r <= f1)%nat -> (length r <= f2)%nat ->
token_fuel f1 r = token_fuel f2 r.
Proof.
induction f1 as [|f1 IH]; intros f2 r H1 H2.
- destruct r; [|simpl in H1; lia]. by destruct f2.
- destruct r as [|c r]; [by destruct f2|].
  destruct f2 as [|f2]; [simpl in H2; lia|].
  cbn [token_fuel]. pose proof (DecodeRune_size c r) as Hsz.
  destruct (DecodeRune (c :: r)) as [x sz]. simpl in Hsz.
  destruct (isSpace x); [done|].
  rewrite (IH f2); [done| |]; rewrite length_skipn; simpl in *; lia.
Qed.

End ScanFacts.

(** ** The stream decoder reads on until its scanner is satisfied *)

Module JsonFacts.
Import Json.

(** Every refill takes at least one byte from a source that has some, so
    the fuel of [readValue], the length of the source, never runs out. *)
Lemma readValue_fuel_enough scanner : forall f1 f2 buf cap src,
(length buf <= cap)%nat -> (length src <= f1)%nat -> (length src <= f2)%nat ->
readValue scanner f1 buf cap src = readValue scanner f2 buf cap src.
Proof.
induction f1 as [|f1 IH]; intros f2 buf cap src Hcap H1 H2.
- destruct src; [|simpl in H1; lia]. destruct f2; simpl; by destruct (scanner buf).
- destruct f2 as [|f2].
  { destruct src; [|simpl in H2; lia]. simpl. by destruct (scanner buf). }
  cbn [readValue]. destruct (scanner buf); try done.
  destruct src as [|c src]; [done|].
  set (cap' := if (cap - length buf <? minRead)%nat then (2 * cap + minRead)%nat else cap).
  assert (Hn : (1 <= cap' - length buf)%nat /\ (length buf <= cap')%nat).
  { unfold cap', minRead. destruct (Nat.ltb_spec (cap - length buf) 512); lia. }
  apply IH.
  + rewrite length_app, length_take. lia.
  + rewrite length_skipn. simpl in *. lia.
  + rewrite length_skipn. simpl in *. lia.
Qed.

End JsonFacts.



(** ** The codec: decoding what was encoded *)

Section CodecFacts.

Context {Command : Type} `{CommandAPI Command}.

Implicit Types (l : Log Command) (e : LogEntry Command).

Lemma fmt_x_head w n : exists c s, Hex.fmt_x w n = c :: s /\ Scan.plain c = true.
Proof.
pose proof (HexFacts.fmt_x_nonempty w n) as Hne.
pose proof (HexFacts.fmt_x_lower w n) as Hlow.
destruct (Hex.fmt_x w n) as [|c s]; [done|].
exists c, s. split; [done|].
inversion Hlow as [|? ? Hc _]; subst.
apply HexFacts.lower_hex_digit_value in Hc as [d Hd].
by eapply ScanFacts.digit_value_plain.
Qed.

Lemma word_head s : Scan.word s = true -> exists c s', s = c :: s' /\ Scan.plain c = true.
Proof.
unfold Scan.word. destruct s as [|c s']; [done|]. simpl.
intros [Hc _]%andb_prop. by exists c, s'.
Qed.

Lemma compact_head p : Scan.compact p = true -> exists c p', p = c :: p' /\ Scan.plain c = true.
Proof.
unfold Scan.compact. destruct p as [|c p']; [done|].
intros [Hc _]%andb_prop. by exists c, p'.
Qed.

Lemma pow_16_16 : 16 ^ N.of_nat 16 = 2 ^ 64.
Proof. reflexivity. Qed.

Lemma pow_16_8 : 16 ^ N.of_nat 8 = 2 ^ 32.
Proof. reflexivity. Qed.

(** Scanning the header of a line that [Encode] formats. *)
Lemma scan_header_payload_line i t name p :
i < 2 ^ 64 -> t < 2 ^ 64 ->
Scan.word (list_ascii_of_string name) = true -> Scan.compact p = true ->
scan_header (payload_line i t name p)
= Some (i, t, list_ascii_of_string name, p ++ [NL]).
Proof.
intros Hi Ht Hname Hp. unfold scan_header, payload_line.
rewrite ScanFacts.scanUint_fmt_x; [|lia|by rewrite pow_16_16|done].
destruct (fmt_x_head 16 t) as (c1 & s1 & E1 & Hc1).
cbn [app]. rewrite E1 at 1. rewrite <- app_comm_cons.
rewrite ScanFacts.format_space_plain by done.
rewrite app_comm_cons, <- E1.
rewrite ScanFacts.scanUint_fmt_x; [|lia|by rewrite pow_16_16|done].
destruct (word_head _ Hname) as (c2 & s2 & E2 & Hc2).
rewrite E2 at 1. rewrite <- app_comm_cons.
rewrite ScanFacts.format_space_plain by done.
rewrite app_comm_cons, <- E2.
rewrite ScanFacts.scanString_word by done.
destruct (compact_head _ Hp) as (c3 & s3 & E3 & Hc3).
rewrite E3 at 1. rewrite <- app_comm_cons.
rewrite ScanFacts.format_space_plain by done.
by rewrite app_comm_cons, <- E3.
Qed.

Lemma NL_not_SP : NL ∉ [SP].
Proof. apply not_elem_of_cons. split; [done | apply not_elem_of_nil]. Qed.

(** A formatted line holds one newline, at its end. *)
Lemma payload_line_split i t name p :
Scan.word (list_ascii_of_string name) = true -> Scan.compact p = true ->
exists body, payload_line i t name p = body ++ [NL] /\ NL ∉ body.
Proof.
intros Hname Hp.
exists (Hex.fmt_x 16 i ++ [SP] ++ Hex.fmt_x 16 t ++ [SP]
          ++ list_ascii_of_string name ++ [SP] ++ p).
split.
- unfold payload_line. by rewrite <- !app_assoc.
- rewrite !not_elem_of_app. repeat split.
  + apply ScanFacts.lower_hex_no_NL, HexFacts.fmt_x_lower.
  + apply NL_not_SP.
  + apply ScanFacts.lower_hex_no_NL, HexFacts.fmt_x_lower.
  + apply NL_not_SP.
  + apply ScanFacts.forallb_plain_no_NL. unfold Scan.word in Hname.
    by destruct (list_ascii_of_string name).
  + apply NL_not_SP.
  + by apply ScanFacts.compact_no_NL.
Qed.

(** The parts of a storable entry. *)
Lemma storable_inv l e :
storable l e = true ->
exists c p proto c',
  command e = Some c /\ json_Marshal c = Some p /\
  commandTypes l !! Name c = Some proto /\
  index e < 2 ^ 64 /\ term e < 2 ^ 64 /\
  Scan.word (list_ascii_of_string (Name c)) = true /\ Scan.compact p = true /\
  json_Decode (reflect_New proto) (p ++ [NL]) = Some (c', []) /\
  Name c' = Name c /\ json_Marshal c' = Some p.
Proof.
unfold storable. intros Hs.
apply andb_prop in Hs as [[Hi Ht]%andb_prop Hs].
destruct (command e) as [c|]; [|done].
destruct (json_Marshal c) as [p|] eqn:Hm; [|done].
destruct (commandTypes l !! Name c) as [proto|] eqn:Hreg; [|done].
apply andb_prop in Hs as [[Hn Hp]%andb_prop Hs].
destruct (json_Decode (reflect_New proto) (p ++ [NL])) as [[c' [|? ?]]|] eqn:Hd; try done.
apply andb_prop in Hs as [Hn'%bool_decide_eq_true Hm'%bool_decide_eq_true].
exists c, p, proto, c'. repeat split; try done; by apply N.ltb_lt.
Qed.

Lemma storable_reread_view l e :
storable l e = true -> view (reread l e) = view e.
Proof.
intros (c & p & proto & c' & Hc & Hm & Hreg & _ & _ & _ & _ & Hd & Hn & Hm')%storable_inv.
unfold reread, view. rewrite Hc, Hm, Hreg, Hd. simpl.
by rewrite Hn, Hm', Hm.
Qed.

Lemma encoded_eq e c p :
command e = Some c -> json_Marshal c = Some p ->
encoded e =
  Hex.fmt_x 8 (CRC32.ChecksumIEEE (payload_line (index e) (term e) (Name c) p))
    ++ [SP] ++ payload_line (index e) (term e) (Name c) p.
Proof. unfold encoded. by intros -> ->. Qed.

Lemma length_fmt_checksum data : length (Hex.fmt_x 8 (CRC32.ChecksumIEEE data)) = 8%nat.
Proof.
apply HexFacts.length_fmt_x; [|lia].
rewrite pow_16_8. apply CRC32Facts.ChecksumIEEE_u32.
Qed.

(** Decoding what [Encode] wrote gives the entry back and stops after its
    line. *)
Lemma Decode_encoded l e rest :
storable l e = true ->
Decode l (Some (encoded e ++ rest)) = (length (encoded e), Decoded (reread l e) rest).
Proof.
intros Hs.
destruct (storable_inv l e Hs)
  as (c & p & proto & c' & Hc & Hm & Hreg & Hi & Ht & Hn & Hp & Hd & _ & _).
rewrite (encoded_eq e c p Hc Hm).
unfold reread. rewrite Hc, Hm, Hreg, Hd.
set (b := payload_line (index e) (term e) (Name c) p).
rewrite !length_app, length_fmt_checksum.
unfold Decode. rewrite <- app_assoc.
rewrite ScanFacts.scanUint_fmt_x;
  [|lia|rewrite pow_16_8; apply CRC32Facts.ChecksumIEEE_u32
   |apply CRC32Facts.ChecksumIEEE_u32].
cbn [app]. change (Ascii.eqb SP SP) with true. cbn [negb].
destruct (payload_line_split (index e) (term e) (Name c) p Hn Hp) as (body & Eb & Hnl).
fold b in Eb. rewrite Eb, <- app_assoc. cbn [app].
rewrite ScanFacts.ReadString_line by done.
rewrite <- Eb. rewrite N.eqb_refl. cbn [negb].
unfold b at 1. rewrite scan_header_payload_line by done.
rewrite string_of_list_ascii_of_string.
unfold NewCommand. rewrite Hreg, Hd. done.
Qed.

End CodecFacts.

(** ** The read loop of Open *)

Section ReplayFacts.

Context {Command : Type} `{CommandAPI Command}.

Implicit Types (l : Log Command) (e : LogEntry Command).

Lemma ReadString_suffix : forall r line rest eof,
ReadString r = (line, rest, eof) -> rest `suffix_of` r.
Proof.
induction r as [|c r IH]; intros line rest eof Hr; simpl in Hr.
- by simplify_eq.
- destruct (Ascii.eqb c NL).
  + simplify_eq. by apply suffix_cons_r.
  + destruct (ReadString r) as [[line' rest'] eof'] eqn:E. simplify_eq.
    apply suffix_cons_r. by eapply IH.
Qed.

(** A successful [Decode] consumes a part of its input. *)
Lemma Decode_consumes l r n e r' :
Decode l (Some r) = (n, Decoded e r') -> (length r' < length r)%nat.
Proof.
unfold Decode.
destruct (Scan.scanUint 8 32 r) as [[checksum r1]|] eqn:Hs; [|done].
apply ScanFacts.scanUint_suffix, suffix_length in Hs.
destruct r1 as [|c r2]; [done|].
destruct (negb (Ascii.eqb c SP)); [done|].
destruct (ReadString r2) as [[line r3] eof] eqn:Hr.
apply ReadString_suffix, suffix_length in Hr.
destruct eof; [done|]. destruct (negb _); [done|].
destruct (scan_header line) as [[[[i t] name] b]|]; [|done].
destruct (NewCommand l _); [|done].
destruct (json_Decode _ _) as [[c' [|x b']]|]; [|done|done].
intros Hd. simplify_eq. simpl in Hs. lia.
Qed.

(** The fuel of the read loop never runs out: any amount that covers the
    length of the input gives the same result. *)
Lemma replay_fuel_enough : forall fuel1 fuel2 l r lastIndex,
(length r <= fuel1)%nat -> (length r <= fuel2)%nat ->
replay fuel1 l r lastIndex = replay fuel2 l r lastIndex.
Proof.
induction fuel1 as [|f1 IH]; intros fuel2 l r lastIndex H1 H2.
- destruct r; [|simpl in H1; lia]. by destruct fuel2.
- destruct r as [|c r]; [by destruct fuel2|].
  destruct fuel2 as [|f2]; [simpl in H2; lia|].
  cbn [replay].
  destruct (Decode l (Some (c :: r))) as [n [e r'|err]] eqn:Hd; [|done].
  apply Decode_consumes in Hd. simpl in *. apply IH; lia.
Qed.

(** [Decode] fails on the trailing bytes of a crash. *)
Lemma Decode_garbage l g :
garbage g -> exists n err, Decode l (Some g) = (n, Failed err).
Proof.
intros [Hnl | cs body rest v Hlen Hcs Hnl Hv ->].
- unfold Decode.
  destruct (Scan.scanUint 8 32 g) as [[v r1]|] eqn:Hs; [|by eexists _, _].
  apply ScanFacts.scanUint_suffix in Hs.
  pose proof (ScanFacts.suffix_not_elem _ _ _ Hs Hnl) as Hnl1.
  destruct r1 as [|c r2]; [by eexists _, _|].
  destruct (negb (Ascii.eqb c SP)); [by eexists _, _|].
  apply not_elem_of_cons in Hnl1 as [_ Hnl2].
  rewrite ScanFacts.ReadString_eof by done. by eexists _, _.
- unfold Decode.
  rewrite (ScanFacts.scanUint_digits 8 32 cs v); [|lia|done|done|].
  + cbn [app]. change (Ascii.eqb SP SP) with true. cbn [negb].
    rewrite ScanFacts.ReadString_line by done.
    destruct (N.eqb_spec v (CRC32.ChecksumIEEE (body ++ [NL]))) as [E|_]; [done|].
    by eexists _, _.
  + unfold Hex.ParseUint in Hcs. destruct cs as [|c cs]; [done|].
    apply (ScanFacts.parse_from_bound _ _ _ 0) in Hcs; [|reflexivity].
    rewrite Hlen in Hcs. exact Hcs.
Qed.

Lemma set_get_id l :
set_entries (entries l ++ []) (set_commitIndex (commitIndex l) l) = l.
Proof. destruct l. unfold set_entries, set_commitIndex. simpl. by rewrite app_nil_r. Qed.

Lemma encoded_nonempty l e : storable l e = true -> exists c s, encoded e = c :: s.
Proof.
intros (c & p & proto & c' & Hc & Hm & _)%storable_inv.
rewrite (encoded_eq e c p Hc Hm).
destruct (fmt_x_head 8 (CRC32.ChecksumIEEE (payload_line (index e) (term e) (Name c) p)))
  as (x & s & -> & _).
by eexists _, _.
Qed.

Lemma index_reread l e : index (reread l e) = index e.
Proof.
unfold reread. destruct (command e); [|done].
destruct (json_Marshal _); [|done]. destruct (commandTypes l !! _); [|done].
by destruct (json_Decode _ _) as [[? ?]|].
Qed.

Lemma replayed_cons l e es :
replayed
  (set_entries (entries l ++ [reread l e]) (set_commitIndex (index (reread l e)) l)) es
= replayed l (e :: es).
Proof.
unfold replayed, set_entries, set_commitIndex, replayed_index. simpl.
rewrite <- app_assoc. simpl. f_equal.
rewrite index_reread. destruct es as [|e' es]; [done|].
rewrite last_cons_cons. destruct (last (e' :: es)) eqn:E; [done|]. by apply last_None in E.
Qed.

(** Replaying the lines of storable entries: each is decoded and appended,
    and the loop goes on with what follows them. *)
Lemma replay_encoded es : forall fuel l rest lastIndex,
Forall (fun e => storable l e = true) es ->
(length (concat (map encoded es) ++ rest) <= fuel)%nat ->
exists fuel', (length rest <= fuel')%nat /\
  replay fuel l (concat (map encoded es) ++ rest) lastIndex
  = replay fuel' (replayed l es) rest
      (lastIndex + length (concat (map encoded es)))%nat.
Proof.
induction es as [|e es IH]; intros fuel l rest lastIndex Hall Hfuel.
- exists fuel. split; [done|]. simpl.
  unfold replayed, replayed_index. simpl. rewrite set_get_id.
  by rewrite Nat.add_0_r.
- inversion Hall as [|? ? He Hes]; subst.
  destruct (encoded_nonempty l e He) as (c & s & Ec).
  rewrite map_cons, concat_cons, <- app_assoc in *. rewrite length_app in Hfuel.
  destruct fuel as [|f]; [rewrite Ec in Hfuel; simpl in Hfuel; lia|].
  set (l1 := set_entries (entries l ++ [reread l e])
              (set_commitIndex (index (reread l e)) l)).
  assert (Hstep :
    replay (S f) l (encoded e ++ concat (map encoded es) ++ rest) lastIndex
    = replay f l1 (concat (map encoded es) ++ rest) (lastIndex + length (encoded e))%nat).
  { rewrite Ec at 1. cbn [app replay]. rewrite app_comm_cons, <- Ec.
    by rewrite Decode_encoded. }
  destruct (IH f l1 rest (lastIndex + length (encoded e))%nat Hes) as (fuel' & Hf' & Heq).
  { rewrite Ec in Hfuel. simpl in Hfuel. lia. }
  exists fuel'. split; [done|].
  rewrite Hstep, Heq. unfold l1. rewrite replayed_cons, length_app. f_equal. lia.
Qed.

(** The read loop of [Open] on a file of storable entries followed by the
    trailing bytes of a crash. *)
Lemma replay_file l es g :
Forall (fun e => storable l e = true) es -> garbage g ->
exists stop,
  replay (length (concat (map encoded es) ++ g)) l (concat (map encoded es) ++ g) 0
  = (replayed l es, length (concat (map encoded es)), stop)
  /\ (g = [] -> stop = None) /\ (g <> [] -> exists err, stop = Some err).
Proof.
intros Hall Hg.
destruct (replay_encoded es _ l g 0%nat Hall (Nat.le_refl _)) as (fuel' & Hf' & ->).
destruct g as [|c g].
- exists None. by destruct fuel'.
- destruct fuel' as [|f]; [simpl in Hf'; lia|].
  destruct (Decode_garbage (replayed l es) (c :: g) Hg) as (n & err & Hd).
  exists (Some err). cbn [replay]. rewrite Hd. split; [done|]. split; [done|].
  intros _. by exists err.
Qed.

Lemma truncate_exact (valid g : bytes) : truncate (length valid) (valid ++ g) = valid.
Proof.
unfold truncate. rewrite take_app_length, length_app.
replace (length valid - (length valid + length g))%nat with 0%nat by lia.
apply app_nil_r.
Qed.

End ReplayFacts.

(** ** Open *)

Section OpenFacts.

Context {Command : Type} `{CommandAPI Command}.

Implicit Types (l : Log Command) (e : LogEntry Command).

Lemma syscall_nil w : faults w = [] -> syscall w = (false, w).
Proof. unfold syscall. by intros ->. Qed.


Lemma OpenFile_ok path l w :
faults w = [] ->
OpenFile path l w
= (None, set_file (Some path) l,
   set_disk (<[path := default [] (disk w !! path)]> (disk w)) w).
Proof. intros Hf. unfold OpenFile. by rewrite syscall_nil. Qed.


Lemma map_view_reread l es :
Forall (fun e => storable l e = true) es -> map view (map (reread l) es) = map view es.
Proof.
induction 1 as [|e es He _ IH]; simpl; [done|].
by rewrite storable_reread_view, IH.
Qed.

(** [Open] on a file of storable entries followed by trailing bytes, no
    system call failing: the entries are replayed, the trailing bytes cut
    off, and the file is open for appending. *)
Lemma Open_replays path l w es g :
Forall (fun e => storable l e = true) es ->
garbage g ->
disk w !! path = Some (concat (map encoded es) ++ g) ->
faults w = [] ->
exists w',
  Open path l w = (None, set_file (Some path) (replayed l es), w') /\
  faults w' = [] /\
  disk w' !! path = Some (concat (map encoded es)).
Proof.
intros Hall Hg Hdisk Hf.
destruct (replay_file l es g Hall Hg) as (stop & Hr & Hnil & Hcons).
unfold Open. rewrite Hdisk, syscall_nil, Hr by done.
destruct g as [|c g].
- rewrite Hnil by done. rewrite OpenFile_ok by done.
  eexists. split; [done|]. split; [done|].
  simpl. rewrite lookup_insert_eq, Hdisk. simpl. by rewrite app_nil_r.
- destruct Hcons as [err ->]; [done|].
  rewrite syscall_nil, OpenFile_ok by done.
  eexists. split; [done|]. split; [done|].
  simpl. rewrite !lookup_insert_eq. simpl. by rewrite truncate_exact.
Qed.

(** [Open] on a path without a file, or with an empty one. *)
Lemma Open_empty path l w :
default [] (disk w !! path) = [] -> faults w = [] ->
exists w',
  Open path l w = (None, set_file (Some path) l, w') /\
  faults w' = [] /\ disk w' !! path = Some [].
Proof.
intros Hd Hf. destruct (disk w !! path) as [d|] eqn:E.
- simpl in Hd. subst d.
  destruct (Open_replays path l w [] []) as (w' & Ho & Hf' & Hd'); try done.
  { by apply incomplete_line, not_elem_of_nil. }
  exists w'. split; [|done]. rewrite Ho. unfold replayed, replayed_index. simpl.
  by rewrite set_get_id.
- unfold Open. rewrite E, OpenFile_ok by done.
  eexists. split; [done|]. split; [done|]. simpl. by rewrite lookup_insert_eq, E.
Qed.


End OpenFacts.

(** ** SetCommitIndex and Append *)

Section CommitFacts.

Context {Command : Type} `{CommandAPI Command}.

Implicit Types (l : Log Command) (e : LogEntry Command).

Lemma Encode_written e c p path w :
command e = Some c -> json_Marshal c = Some p -> faults w = [] ->
Encode e (FileWriter (Some path)) w
= (None, set_disk (<[path := default [] (disk w !! path) ++ encoded e]> (disk w)) w).
Proof.
intros Hc Hm Hf. rewrite (encoded_eq e c p Hc Hm).
unfold Encode, file_Write. by rewrite Hc, Hm, syscall_nil.
Qed.

Lemma replayed_index_cons ci e (es : list (LogEntry Command)) :
replayed_index ci (e :: es) = replayed_index (index e) es.
Proof.
unfold replayed_index. destruct es as [|e' es]; [done|].
rewrite last_cons_cons. destruct (last (e' :: es)) eqn:E; [done|].
by apply last_None in E.
Qed.

(** The loop of [SetCommitIndex] over entries numbered consecutively from
    [k], the commit index being below [k]: the entries up to [idx] are written
    in order and the commit index follows them. *)
Lemma commit_loop_seq path idx : forall es k ci w old,
faults w = [] -> disk w !! path = Some old ->
map index es = map N.of_nat (seq k (length es)) ->
ci < N.of_nat k ->
Forall (fun e => exists c p, command e = Some c /\ json_Marshal c = Some p)
  (committed idx es) ->
exists w',
  commit_loop (Some path) idx es ci w
  = (None, replayed_index ci (committed idx es), w')
  /\ faults w' = []
  /\ disk w' !! path = Some (old ++ concat (map encoded (committed idx es))).
Proof.
induction es as [|e es IH]; intros k ci w old Hf Hd Hidx Hci Hser.
- exists w. simpl. by rewrite app_nil_r.
- simpl in Hidx. injection Hidx as Hk Hidx.
  cbn [commit_loop]. unfold committed in *. cbn [List.filter] in *.
  assert (Hlt : (ci <? index e) = true) by (apply N.ltb_lt; lia).
  rewrite Hlt. cbn [andb].
  destruct (index e <=? idx) eqn:Hle.
  + inversion Hser as [|? ? (c & p & Hc & Hm) Hser']; subst.
    rewrite (Encode_written e c p) by done.
    destruct (IH (S k) (index e)
                (set_disk (<[path := default [] (disk w !! path) ++ encoded e]> (disk w)) w)
                (old ++ encoded e)) as (w' & -> & Hf' & Hd'); try done.
    * simpl. by rewrite lookup_insert_eq, Hd.
    * lia.
    * exists w'. rewrite replayed_index_cons. split; [done|]. split; [done|].
      rewrite Hd'. simpl. by rewrite <- app_assoc.
  + destruct (IH (S k) ci w old) as (w' & -> & Hf' & Hd'); try done; [lia|].
    by exists w'.
Qed.




End CommitFacts.

(** ** Durability *)

Section Durability.

Context {Command : Type} `{CommandAPI Command}.

Implicit Types (l : Log Command) (e : LogEntry Command).

Lemma storable_serializes l e :
storable l e = true -> exists c p, command e = Some c /\ json_Marshal c = Some p.
Proof. intros (c & p & _ & _ & Hc & Hm & _)%storable_inv. by exists c, p. Qed.

Lemma replayed_index_fix ci v (es : list (LogEntry Command)) :
replayed_index ci es = v -> replayed_index v es = v.
Proof. unfold replayed_index. destruct (last es); simpl; congruence. Qed.


End Durability.

(** ** The codec and the log: the properties of the specification *)

Section CodecTheorems.

Context {Command : Type} `{CommandAPI Command}.

Implicit Types (l : Log Command) (e : LogEntry Command).

(** C3. Encoded on-disk format: for an entry whose command serializes,
    [Encode] appends to the file one line made of 8 lower-case hexadecimal
    digits, a space, 16 lower-case hexadecimal digits denoting the index, a
    space, 16 lower-case hexadecimal digits denoting the term, a space, the
    command name, a space, the serialized command and a newline; the first
    field denotes the CRC-32 (IEEE) of the bytes from the first index digit
    through the newline. *)
Theorem Encode_format e c p path w :
command e = Some c -> json_Marshal c = Some p ->
index e < 2 ^ 64 -> term e < 2 ^ 64 ->
faults w = [] ->
exists w' cs ix tm,
  Encode e (FileWriter (Some path)) w = (None, w') /\
  disk w' !! path
  = Some (default [] (disk w !! path) ++ cs ++ [SP] ++ ix ++ [SP] ++ tm ++ [SP]
            ++ list_ascii_of_string (Name c) ++ [SP] ++ p ++ [NL]) /\
  length cs = 8%nat /\ Forall Hex.lower_hex cs /\
  Hex.value cs
  = CRC32.ChecksumIEEE (ix ++ [SP] ++ tm ++ [SP]
                          ++ list_ascii_of_string (Name c) ++ [SP] ++ p ++ [NL]) /\
  length ix = 16%nat /\ Forall Hex.lower_hex ix /\ Hex.value ix = index e /\
  length tm = 16%nat /\ Forall Hex.lower_hex tm /\ Hex.value tm = term e.
Proof.
intros Hc Hm Hi Ht Hf.
rewrite (Encode_written e c p) by done.
rewrite (encoded_eq e c p Hc Hm). unfold payload_line.
eexists _, (Hex.fmt_x 8 _), (Hex.fmt_x 16 (index e)), (Hex.fmt_x 16 (term e)).
split; [reflexivity|]. split.
{ unfold set_disk. cbn [disk]. rewrite lookup_insert_eq. reflexivity. }
split; [apply length_fmt_checksum|].
split; [apply HexFacts.fmt_x_lower|].
split; [apply HexFacts.value_fmt_x|].
split; [apply HexFacts.length_fmt_x; [by rewrite pow_16_16|lia]|].
split; [apply HexFacts.fmt_x_lower|].
split; [apply HexFacts.value_fmt_x|].
split; [apply HexFacts.length_fmt_x; [by rewrite pow_16_16|lia]|].
split; [apply HexFacts.fmt_x_lower|].
apply HexFacts.value_fmt_x.
Qed.


(** The check that ends [Decode]: once the command is deserialized, the
    outcome depends on what the decoder left unread in the line buffer. *)
Lemma Decode_end_of_line l r checksum r2 line r3 i t name b c c' b' :
Scan.scanUint 8 32 r = Some (checksum, SP :: r2) ->
ReadString r2 = (line, r3, false) ->
checksum = CRC32.ChecksumIEEE line ->
scan_header line = Some (i, t, name, b) ->
NewCommand l (string_of_list_ascii name) = Some c ->
json_Decode c b = Some (c', b') ->
Decode l (Some r)
= ((8 + 1 + length line)%nat,
   match b' with
   | [] => Decoded (NewLogEntry i t (Some c')) r3
   | x :: _ => Failed (ErrExpectedEOL x)
   end).
Proof.
intros Hs Hr -> Hh Hn Hd. unfold Decode.
rewrite Hs. change (Ascii.eqb SP SP) with true. cbn [negb].
rewrite Hr, N.eqb_refl. cbn [negb]. rewrite Hh, Hn, Hd. by destruct b'.
Qed.

End CodecTheorems.

Section LogTheorems.

Context {Command : Type} `{CommandAPI Command}.

Implicit Types (l : Log Command) (e : LogEntry Command).

Lemma commit_loop_mono f idx : forall (es : list (LogEntry Command)) ci w err ci' w',
commit_loop f idx es ci w = (err, ci', w') -> ci <= ci'.
Proof.
induction es as [|e es IH]; intros ci w err ci' w' Hl.
- simpl in Hl. injection Hl as _ <- _. lia.
- cbn [commit_loop] in Hl.
  destruct ((ci <? index e) && (index e <=? idx)) eqn:Hin.
  + destruct (Encode e (FileWriter f) w) as [[err1|] w1].
    * injection Hl as _ <- _. lia.
    * apply IH in Hl. apply andb_prop in Hin as [Hlt%N.ltb_lt _]. lia.
  + by eapply IH.
Qed.

Lemma Append_commitIndex e l w : commitIndex (Append e l w).1.2 = commitIndex l.
Proof.
unfold Append. destruct (file l); [|done].
destruct (last (entries l)) as [lastEntry|]; [|done].
destruct (term e <? term lastEntry); [done|]. by destruct (_ && _).
Qed.

Lemma SetCommitIndex_mono idx l w : commitIndex l <= commitIndex (SetCommitIndex idx l w).1.2.
Proof.
unfold SetCommitIndex. destruct (idx <? commitIndex l); [simpl; lia|].
destruct (commit_loop _ _ _ _ _) as [[err ci] w1] eqn:Hl.
cbn [fst snd commitIndex set_commitIndex]. by eapply commit_loop_mono.
Qed.

Lemma exec_mono (c : call Command) s :
is_open_call c = false -> commitIndex s.1 <= commitIndex (exec c s).2.1.
Proof.
destruct s as [l w]. destruct c as [path| |e|idx]; intros Hc; [done| | |].
- cbn. lia.
- pose proof (Append_commitIndex e l w) as Ha.
  cbn [exec fst snd]. destruct (Append e l w) as [[err l'] w']. cbn in *. lia.
- pose proof (SetCommitIndex_mono idx l w) as Hs.
  cbn [exec fst snd]. destruct (SetCommitIndex idx l w) as [[err l'] w']. by cbn in *.
Qed.

(** C5, as amended. The commit index never decreases across [Close],
    [Append] and [SetCommitIndex] calls, whatever they return;
    [SetCommitIndex j] with [j] below the commit index returns an error and
    leaves the log and the files unchanged; and [Open] sets the commit index
    to the index of the last entry it replays, whatever it was before, and
    keeps it when it replays none. *)
Theorem commitIndex_monotone :
(forall (cs : list (call Command)) s,
   forallb (fun c => negb (is_open_call c)) cs = true ->
   commitIndex s.1 <= commitIndex (run cs s).1)
/\ (forall j l w,
      j < commitIndex l ->
      SetCommitIndex j l w = (Some (ErrCommitIndex (commitIndex l) j), l, w))
/\ (forall path l w es g,
      Forall (fun e => storable l e = true) es -> garbage g ->
      disk w !! path = Some (concat (map encoded es) ++ g) -> faults w = [] ->
      commitIndex (Open path l w).1.2 = replayed_index (commitIndex l) es).
Proof.
split; [|split].
- induction cs as [|c cs IH]; intros s Hcs; simpl; [lia|].
  simpl in Hcs. apply andb_prop in Hcs as [Hc%negb_true_iff Hcs].
  etrans; [apply (exec_mono c s Hc)|]. by apply IH.
- intros j l w Hj. unfold SetCommitIndex. by apply N.ltb_lt in Hj as ->.
- intros path l w es g Hall Hg Hd Hf.
  by destruct (Open_replays path l w es g Hall Hg Hd Hf) as (w' & -> & _).
Qed.

(** C6. Append ordering enforcement: on an open log with entries, an entry
    whose term is below the last entry's term, or whose index equals the
    last entry's index, is rejected with an error, and the log and the
    files are unchanged. *)
Theorem Append_ordering l w e f lastEntry :
file l = Some f ->
last (entries l) = Some lastEntry ->
term e < term lastEntry \/ index e = index lastEntry ->
exists err, Append e l w = (Some err, l, w).
Proof.
intros Hf Hlast Hord. unfold Append. rewrite Hf, Hlast.
destruct (N.ltb_spec (term e) (term lastEntry)) as [Hlt|Hge]; [by eexists|].
destruct Hord as [Hlt|Heq]; [lia|].
rewrite Heq, N.eqb_refl, N.leb_refl. by eexists.
Qed.

(** C7. Append is memory-only: a successful [Append] adds the entry at the
    end of the in-memory sequence and changes nothing else: the file
    system, the commit index, the file handle and the entries already
    present are as before. *)
Theorem Append_memory_only l w e l' w' :
Append e l w = (None, l', w') ->
entries l' = entries l ++ [e] /\
commitIndex l' = commitIndex l /\
file l' = file l /\
commandTypes l' = commandTypes l /\
w' = w.
Proof.
unfold Append. intros Ha.
destruct (file l) as [f|] eqn:Hf; [|done].
assert (Hok : (@None error, set_entries (entries l ++ [e]) l, w) = (None, l', w')).
{ destruct (last (entries l)) as [lastEntry|]; [|done].
  destruct (term e <? term lastEntry); [done|]. by destruct (_ && _). }
injection Hok as <- <-. repeat split. exact Hf.
Qed.

Lemma set_commitIndex_id l : set_commitIndex (commitIndex l) l = l.
Proof. by destruct l. Qed.

(** The entries [SetCommitIndex idx] has to write. *)
Lemma commit_loop_closed idx : forall (es : list (LogEntry Command)) ci w,
exists err,
  commit_loop None idx es ci w = (err, ci, w) /\
  (err = None <->
   forallb (fun e => negb ((ci <? index e) && (index e <=? idx))) es = true).
Proof.
induction es as [|e es IH]; intros ci w.
- by exists None.
- cbn [commit_loop forallb].
  destruct ((ci <? index e) && (index e <=? idx)).
  + unfold Encode, file_Write.
    destruct (command e) as [c|]; [destruct (json_Marshal c)|];
      eexists; (split; [reflexivity|]); simpl; split; done.
  + destruct (IH ci w) as (err & -> & Herr). by exists err.
Qed.

(** C9, as amended. On a log that holds no open file, [Append] is rejected
    with an error and changes nothing. [SetCommitIndex] has no such guard:
    it leaves the log and the files unchanged as well, but it returns an
    error only when the index is below the commit index or when an entry in
    memory would have to be written; otherwise it returns no error. *)
Theorem not_open_rejection l :
file l = None ->
(forall e w, Append e l w = (Some ErrNotOpen, l, w))
/\ (forall idx w,
      exists err,
        SetCommitIndex idx l w = (err, l, w) /\
        (err = None <->
         commitIndex l <= idx /\
         forallb (fun e => negb ((commitIndex l <? index e) && (index e <=? idx)))
           (entries l) = true)).
Proof.
intros Hf. split.
- intros e w. unfold Append. by rewrite Hf.
- intros idx w. unfold SetCommitIndex. rewrite Hf.
  destruct (N.ltb_spec idx (commitIndex l)) as [Hlt|Hge].
  + eexists. split; [reflexivity|]. split; [done|]. intros [? _]. lia.
  + destruct (commit_loop_closed idx (entries l) (commitIndex l) w) as (err & -> & Herr).
    exists err. rewrite set_commitIndex_id. split; [done|].
    rewrite Herr. tauto.
Qed.

(** C10. [Close] releases the file handle and empties the in-memory
    sequence but keeps the commit index, so that a later [SetCommitIndex]
    below that index is still rejected. *)
Theorem Close_keeps_commitIndex l w :
exists l',
  Close l w = (l', w) /\
  file l' = None /\ entries l' = [] /\
  commitIndex l' = commitIndex l /\
  commandTypes l' = commandTypes l /\
  forall j, j < commitIndex l ->
    SetCommitIndex j l' w = (Some (ErrCommitIndex (commitIndex l) j), l', w).
Proof.
eexists. split; [reflexivity|]. repeat split.
intros j Hj. unfold SetCommitIndex. simpl. by apply N.ltb_lt in Hj as ->.
Qed.

End LogTheorems.

(** * Further properties of the code *)


(** ** The checksum tells apart lines that differ in one byte *)

Module CRC32Sensitivity.
Import CRC32 CRC32Facts.















End CRC32Sensitivity.


Section DecodeMore.

Context {Command : Type} `{CommandAPI Command}.

Implicit Types (l : Log Command) (e : LogEntry Command).







(** A line that is cut: without a newline [Decode] never succeeds, and when
    the checksum field and its space are there the error is the unexpected
    end of input, at the position of the end of the input. *)
Theorem Decode_needs_newline l r :
NL ∉ r ->
(exists n err, Decode l (Some r) = (n, Failed err))
/\ (forall cs v body,
      r = cs ++ [SP] ++ body -> length cs = 8%nat -> Hex.ParseUint cs = Some v ->
      Decode l (Some r) = ((8 + 1 + length body)%nat, Failed ErrUnexpectedEOF)).
Proof.
intros Hnl. split.
- by apply Decode_garbage, incomplete_line.
- intros cs v body -> Hlen Hcs. unfold Decode.
  rewrite (ScanFacts.scanUint_digits 8 32 cs v); [|lia|done|done|].
  + cbn [app]. change (Ascii.eqb SP SP) with true. cbn [negb].
    rewrite ScanFacts.ReadString_eof; [done|].
    rewrite !not_elem_of_app in Hnl. tauto.
  + unfold Hex.ParseUint in Hcs. destruct cs as [|c cs]; [done|].
    apply (ScanFacts.parse_from_bound _ _ _ 0) in Hcs; [|reflexivity].
    rewrite Hlen in Hcs. exact Hcs.
Qed.



(** The line of an entry whose command type is not registered. *)
Lemma Decode_unregistered l e c rest :
encodable e = true -> command e = Some c -> commandTypes l !! Name c = None ->
Decode l (Some (encoded e ++ rest))
= (length (encoded e), Failed (ErrInstantiate (Name c))).
Proof.
unfold encodable. intros He Hc Hreg. rewrite Hc in He.
apply andb_prop in He as [[Hi%N.ltb_lt Ht%N.ltb_lt]%andb_prop He].
destruct (json_Marshal c) as [p|] eqn:Hm; [|done].
apply andb_prop in He as [Hn Hp].
rewrite (encoded_eq e c p Hc Hm).
set (b := payload_line (index e) (term e) (Name c) p).
rewrite !length_app, length_fmt_checksum.
unfold Decode. rewrite <- app_assoc.
rewrite ScanFacts.scanUint_fmt_x;
  [|lia|rewrite pow_16_8; apply CRC32Facts.ChecksumIEEE_u32
   |apply CRC32Facts.ChecksumIEEE_u32].
cbn [app]. change (Ascii.eqb SP SP) with true. cbn [negb].
destruct (payload_line_split (index e) (term e) (Name c) p Hn Hp) as (body & Eb & Hnl).
fold b in Eb. rewrite Eb, <- app_assoc. cbn [app].
rewrite ScanFacts.ReadString_line by done.
rewrite <- Eb. rewrite N.eqb_refl. cbn [negb].
unfold b at 1. rewrite scan_header_payload_line by done.
rewrite string_of_list_ascii_of_string.
unfold NewCommand. by rewrite Hreg.
Qed.

End DecodeMore.


Section OpenMore.

Context {Command : Type} `{CommandAPI Command}.

Implicit Types (l : Log Command) (e : LogEntry Command).

(** The read loop on storable entries followed by bytes on which [Decode]
    fails. *)
Lemma replay_tail l es g n err :
Forall (fun e => storable l e = true) es ->
g <> [] ->
Decode (replayed l es) (Some g) = (n, Failed err) ->
replay (length (concat (map encoded es) ++ g)) l (concat (map encoded es) ++ g) 0
= (replayed l es, length (concat (map encoded es)), Some err).
Proof.
intros Hall Hg Hd.
destruct (replay_encoded es _ l g 0%nat Hall (Nat.le_refl _)) as (fuel' & Hf' & ->).
destruct g as [|c g]; [done|].
destruct fuel' as [|f]; [simpl in Hf'; lia|].
cbn [replay]. by rewrite Hd.
Qed.

Lemma Open_tail path l w es g n err :
Forall (fun e => storable l e = true) es ->
g <> [] ->
Decode (replayed l es) (Some g) = (n, Failed err) ->
disk w !! path = Some (concat (map encoded es) ++ g) ->
faults w = [] ->
Open path l w
= (None, set_file (Some path) (replayed l es),
   set_disk (<[path := concat (map encoded es)]> (disk w)) w).
Proof.
intros Hall Hg Hd Hdisk Hf. unfold Open.
rewrite Hdisk, syscall_nil, (replay_tail l es g n err) by done.
rewrite syscall_nil, OpenFile_ok by done.
f_equal. unfold set_disk. cbn [disk faults]. f_equal.
rewrite lookup_insert_eq. cbn [default from_option id].
by rewrite insert_insert_eq, truncate_exact.
Qed.

(** Opening a file on a log where the command type of one of its entries
    is not registered: no error is returned, the entries before that one
    are replayed, and that entry and all that follows it are cut off the
    file. *)
Theorem Open_unregistered_truncates path l w es e c rest :
Forall (fun e => storable l e = true) es ->
encodable e = true -> command e = Some c -> commandTypes l !! Name c = None ->
disk w !! path = Some (concat (map encoded es) ++ encoded e ++ rest) ->
faults w = [] ->
exists l' w',
  Open path l w = (None, l', w') /\
  entries l' = entries l ++ map (reread l) es /\
  file l' = Some path /\
  disk w' !! path = Some (concat (map encoded es)).
Proof.
intros Hall He Hc Hreg Hdisk Hf.
assert (Hne : encoded e ++ rest <> []).
{ unfold encodable in He. rewrite Hc in He.
  apply andb_prop in He as [_ He].
  destruct (json_Marshal c) as [p|] eqn:Hm; [|done].
  rewrite (encoded_eq e c p Hc Hm).
  destruct (fmt_x_head 8 (CRC32.ChecksumIEEE (payload_line (index e) (term e) (Name c) p)))
    as (x & s & -> & _). done. }
rewrite (Open_tail path l w es (encoded e ++ rest) (length (encoded e))
           (ErrInstantiate (Name c))); try done.
- eexists _, _. split; [reflexivity|]. split; [done|]. split; [done|].
  unfold set_disk. cbn [disk]. by rewrite lookup_insert_eq.
- by apply Decode_unregistered.
Qed.

(** What [replay] and [Open] never touch. *)
Lemma replay_frame : forall fuel l r lastIndex l1 n stop,
replay fuel l r lastIndex = (l1, n, stop) ->
commandTypes l1 = commandTypes l /\ file l1 = file l /\
entries l `prefix_of` entries l1.
Proof.
induction fuel as [|f IH]; intros l r lastIndex l1 n stop Hr.
- destruct r; simpl in Hr; by simplify_eq.
- destruct r as [|c r]; [simpl in Hr; by simplify_eq|].
  cbn [replay] in Hr.
  destruct (Decode l (Some (c :: r))) as [m [e r'|err]]; [|by simplify_eq].
  apply IH in Hr as (Hct & Hfile & Hpre). cbn in Hct, Hfile, Hpre.
  split; [done|]. split; [done|]. by eapply prefix_app_l.
Qed.

Lemma OpenFile_frame path l w err l' w' :
OpenFile path l w = (err, l', w') ->
commandTypes l' = commandTypes l /\ entries l' = entries l /\
commitIndex l' = commitIndex l /\
(forall q, q <> path -> disk w' !! q = disk w !! q) /\
(err = None -> file l' = Some path /\ is_Some (disk w' !! path)).
Proof.
unfold OpenFile. destruct (syscall w) as [fail w1] eqn:Hs.
assert (Hw1 : disk w1 = disk w).
{ unfold syscall in Hs. destruct (faults w); by simplify_eq. }
destruct fail; intros Ho; simplify_eq; repeat split; try done.
- intros q Hq. by rewrite Hw1.
- intros q Hq. unfold set_disk. cbn [disk]. by rewrite lookup_insert_ne, Hw1.
- unfold set_disk. cbn [disk]. by rewrite lookup_insert_eq.
Qed.

(** [Open] leaves the files at other paths alone, whatever fails. *)
Lemma Open_other_paths path l w err l' w' :
Open path l w = (err, l', w') ->
forall q, q <> path -> disk w' !! q = disk w !! q.
Proof.
unfold Open. destruct (disk w !! path) as [data|] eqn:Hd.
- destruct (syscall w) as [fail w1] eqn:Hs.
  assert (Hw1 : disk w1 = disk w).
  { unfold syscall in Hs. destruct (faults w); by simplify_eq. }
  destruct fail.
  { intros Ho q Hq. simplify_eq. by rewrite Hw1. }
  destruct (replay (length data) l data 0) as [[l1 lastIndex] stop] eqn:Hr.
  destruct stop as [derr|].
  + destruct (syscall w1) as [fail2 w2] eqn:Hs2.
    assert (Hw2 : disk w2 = disk w1).
    { unfold syscall in Hs2. destruct (faults w1); by simplify_eq. }
    destruct fail2.
    { intros Ho q Hq. simplify_eq. by rewrite Hw2, Hw1. }
    intros Ho q Hq. apply OpenFile_frame in Ho as (_ & _ & _ & Hother & _).
    rewrite Hother by done. unfold set_disk. cbn [disk].
    by rewrite lookup_insert_ne, Hw2, Hw1.
  + intros Ho q Hq. apply OpenFile_frame in Ho as (_ & _ & _ & Hother & _).
    by rewrite Hother, Hw1.
- intros Ho q Hq. apply OpenFile_frame in Ho as (_ & _ & _ & Hother & _).
  by rewrite Hother.
Qed.

(** [Open] keeps the registry and the entries already in memory, which the
    replayed ones follow; it leaves the files at other paths alone; and when
    it returns no error the log is open on a file that exists. This holds
    whatever the file holds and whichever system call fails. *)
Theorem Open_frame path l w err l' w' :
Open path l w = (err, l', w') ->
commandTypes l' = commandTypes l /\
entries l `prefix_of` entries l' /\
(forall q, q <> path -> disk w' !! q = disk w !! q) /\
(err = None -> file l' = Some path /\ is_Some (disk w' !! path)).
Proof.
unfold Open. destruct (disk w !! path) as [data|] eqn:Hd.
- destruct (syscall w) as [fail w1] eqn:Hs.
  assert (Hw1 : disk w1 = disk w).
  { unfold syscall in Hs. destruct (faults w); by simplify_eq. }
  destruct fail.
  { intros Ho. simplify_eq. repeat split; try done. by rewrite Hw1. }
  destruct (replay (length data) l data 0) as [[l1 lastIndex] stop] eqn:Hr.
  apply replay_frame in Hr as (Hct & Hfile & Hpre).
  destruct stop as [derr|].
  + destruct (syscall w1) as [fail2 w2] eqn:Hs2.
    assert (Hw2 : disk w2 = disk w1).
    { unfold syscall in Hs2. destruct (faults w1); by simplify_eq. }
    destruct fail2.
    { intros Ho. simplify_eq. repeat split; try done. intros q Hq. by rewrite Hw2, Hw1. }
    intros Ho. apply OpenFile_frame in Ho as (Hct' & Hent' & _ & Hother & Hok).
    rewrite Hct', Hent'. repeat split; try done; try by apply Hok.
    intros q Hq. rewrite Hother by done. unfold set_disk. cbn [disk].
    by rewrite lookup_insert_ne, Hw2, Hw1.
  + intros Ho. apply OpenFile_frame in Ho as (Hct' & Hent' & _ & Hother & Hok).
    rewrite Hct', Hent'. repeat split; try done; try by apply Hok.
    intros q Hq. by rewrite Hother, Hw1.
- intros Ho. apply OpenFile_frame in Ho as (Hct' & Hent' & _ & Hother & Hok).
  rewrite Hct', Hent'. repeat split; try done; by apply Hok.
Qed.

(** [Open] does not clear the entries in memory: opening the same path a
    second time without closing replays the file again, after the entries
    of the first time. *)
Theorem Open_twice_duplicates path l w es :
Forall (fun e => storable l e = true) es ->
disk w !! path = Some (concat (map encoded es)) ->
faults w = [] ->
exists l1 w1 l2 w2,
  Open path l w = (None, l1, w1) /\
  Open path l1 w1 = (None, l2, w2) /\
  entries l2 = entries l ++ map (reread l) es ++ map (reread l) es /\
  commitIndex l2 = commitIndex l1.
Proof.
intros Hall Hdisk Hf.
assert (Hg : garbage []) by (by apply incomplete_line, not_elem_of_nil).
destruct (Open_replays path l w es [] Hall Hg) as (w1 & Ho1 & Hf1 & Hd1);
  [by rewrite app_nil_r|done|].
destruct (Open_replays path (set_file (Some path) (replayed l es)) w1 es [] Hall Hg)
  as (w2 & Ho2 & _ & _); [by rewrite app_nil_r|done|].
eexists _, w1, _, w2. split; [exact Ho1|]. split; [exact Ho2|]. split.
- unfold replayed. cbn [entries set_file set_entries set_commitIndex].
  by rewrite <- app_assoc.
- unfold replayed. cbn [commitIndex set_file set_entries set_commitIndex].
  apply (replayed_index_fix (commitIndex l)). reflexivity.
Qed.

End OpenMore.


Section CommitMore.

Context {Command : Type} `{CommandAPI Command}.

Implicit Types (l : Log Command) (e : LogEntry Command).

(** What one [Encode] to a file does to the file system: nothing, or the
    line of the entry at the end of that file. *)
Lemma Encode_effect e f w err w' :
Encode e (FileWriter f) w = (err, w') ->
(err <> None /\ disk w' = disk w)
\/ (err = None /\ exists path,
      f = Some path /\
      disk w' = <[path := default [] (disk w !! path) ++ encoded e]> (disk w) /\
      faults w' = tail (faults w)).
Proof.
unfold Encode, encoded.
destruct (command e) as [c|]; [|intros ?; simplify_eq; left; by split].
destruct (json_Marshal c) as [p|]; [|intros ?; simplify_eq; left; by split].
unfold file_Write. destruct f as [path|]; [|intros ?; simplify_eq; left; split; [discriminate|reflexivity]].
destruct (syscall w) as [fail w1] eqn:Hs.
assert (Hw1 : disk w1 = disk w /\ faults w1 = tail (faults w)).
{ unfold syscall in Hs. destruct (faults w) eqn:E; simplify_eq; by rewrite ?E. }
destruct Hw1 as [Hd1 Hf1].
destruct fail; intros Ho; simplify_eq.
- left. by rewrite Hd1.
- right. split; [done|]. exists path. unfold set_disk. cbn [disk faults].
  by rewrite Hd1, Hf1.
Qed.

Lemma insert_app_prefix (d : gmap string bytes) path data q :
default [] (d !! q) `prefix_of` default [] (<[path := default [] (d !! path) ++ data]> d !! q).
Proof.
destruct (decide (path = q)) as [->|Hne].
- rewrite lookup_insert_eq. cbn. by apply prefix_app_r.
- by rewrite lookup_insert_ne.
Qed.

(** The loop of [SetCommitIndex], whatever fails: the commit index ends
    between its start and the requested index, at the index of an entry
    when it moves; files only grow, and only the one written to. *)
Lemma commit_loop_frame f idx : forall (es : list (LogEntry Command)) ci w err ci' w',
commit_loop f idx es ci w = (err, ci', w') ->
ci <= ci' /\ ci' <= N.max ci idx /\
(ci' = ci \/ exists e, e ∈ es /\ index e = ci') /\
(forall q, f <> Some q -> disk w' !! q = disk w !! q) /\
(forall q, default [] (disk w !! q) `prefix_of` default [] (disk w' !! q)).
Proof.
induction es as [|e es IH]; intros ci w err ci' w' Hl.
- simpl in Hl. simplify_eq.
  split; [lia|]. split; [lia|]. split; [by left|]. by split.
- cbn [commit_loop] in Hl.
  destruct ((ci <? index e) && (index e <=? idx)) eqn:Hin.
  + apply andb_prop in Hin as [Hlt%N.ltb_lt Hle%N.leb_le].
    destruct (Encode e (FileWriter f) w) as [[err1|] w1] eqn:He.
    * simplify_eq. apply Encode_effect in He as [[_ Hd]|[? _]]; [|done].
      split; [lia|]. split; [lia|]. split; [by left|]. rewrite Hd. by split.
    * apply Encode_effect in He as [[? _]|(_ & path & -> & Hd & _)]; [done|].
      apply IH in Hl as (Hlo & Hhi & Hwho & Hother & Hgrow).
      split; [lia|]. split; [lia|]. split; [|split].
      -- right. destruct Hwho as [->|(x & Hx & Hix)].
         ++ exists e. split; [apply list_elem_of_here|done].
         ++ exists x. split; [by apply list_elem_of_further|done].
      -- intros q Hq. rewrite Hother, Hd by done.
         rewrite lookup_insert_ne; [done|congruence].
      -- intros q. etrans; [|apply Hgrow]. rewrite Hd. apply insert_app_prefix.
  + apply IH in Hl as (Hlo & Hhi & Hwho & Hother & Hgrow).
    split; [done|]. split; [done|]. split; [|by split].
    destruct Hwho as [->|(x & Hx & Hix)]; [by left|].
    right. exists x. split; [by apply list_elem_of_further|done].
Qed.

(** [SetCommitIndex], whatever it returns and whichever write fails, keeps
    the entries, the file handle and the registry; the commit index ends
    between its earlier value and the larger of that and the requested
    index, and when it moved it is the index of an entry in memory; only the
    file the log is open on changes, and it only grows. *)
Theorem SetCommitIndex_frame idx l w err l' w' :
SetCommitIndex idx l w = (err, l', w') ->
entries l' = entries l /\ file l' = file l /\ commandTypes l' = commandTypes l /\
commitIndex l <= commitIndex l' /\ commitIndex l' <= N.max (commitIndex l) idx /\
(commitIndex l' = commitIndex l \/ exists e, e ∈ entries l /\ index e = commitIndex l') /\
(forall q, file l <> Some q -> disk w' !! q = disk w !! q) /\
(forall q, default [] (disk w !! q) `prefix_of` default [] (disk w' !! q)).
Proof.
unfold SetCommitIndex. destruct (idx <? commitIndex l).
- intros Hs. simplify_eq.
  do 3 (split; [done|]). split; [lia|]. split; [lia|]. split; [by left|]. by split.
- destruct (commit_loop _ _ _ _ _) as [[err1 ci] w1] eqn:Hl.
  intros Hs. simplify_eq.
  apply commit_loop_frame in Hl as (Hlo & Hhi & Hwho & Hother & Hgrow).
  do 3 (split; [done|]). by do 4 (split; [done|]).
Qed.

(** After a loop that succeeded, no entry is left to write up to the same
    index. *)
Lemma commit_loop_done f idx : forall (es : list (LogEntry Command)) ci w ci' w',
commit_loop f idx es ci w = (None, ci', w') ->
forallb (fun e => negb ((ci' <? index e) && (index e <=? idx))) es = true.
Proof.
induction es as [|e es IH]; intros ci w ci' w' Hl; [done|].
cbn [commit_loop] in Hl. cbn [forallb].
destruct ((ci <? index e) && (index e <=? idx)) eqn:Hin.
- destruct (Encode e (FileWriter f) w) as [[err1|] w1]; [done|].
  pose proof (commit_loop_mono _ _ _ _ _ _ _ _ Hl) as Hm.
  rewrite (IH _ _ _ _ Hl), andb_true_r.
  rewrite (proj2 (N.ltb_ge ci' (index e))) by lia. done.
- pose proof (commit_loop_mono _ _ _ _ _ _ _ _ Hl) as Hm.
  rewrite (IH _ _ _ _ Hl), andb_true_r.
  apply andb_false_iff in Hin as [Hlt%N.ltb_ge | Hle].
  + rewrite (proj2 (N.ltb_ge ci' (index e))) by lia. done.
  + rewrite Hle. by rewrite andb_false_r.
Qed.

Lemma commit_loop_skip f idx : forall (es : list (LogEntry Command)) ci w,
forallb (fun e => negb ((ci <? index e) && (index e <=? idx))) es = true ->
commit_loop f idx es ci w = (None, ci, w).
Proof.
induction es as [|e es IH]; intros ci w Hall; [done|].
cbn [forallb] in Hall. apply andb_prop in Hall as [He%negb_true_iff Hall].
cbn [commit_loop]. rewrite He. by apply IH.
Qed.

(** [SetCommitIndex] is idempotent: after a call that returned no error,
    the same call again returns no error, writes nothing and changes
    nothing. *)
Theorem SetCommitIndex_idempotent idx l w l' w' :
SetCommitIndex idx l w = (None, l', w') ->
SetCommitIndex idx l' w' = (None, l', w').
Proof.
unfold SetCommitIndex. destruct (N.ltb_spec idx (commitIndex l)) as [|Hge]; [done|].
destruct (commit_loop _ _ _ _ _) as [[err1 ci] w1] eqn:Hl.
intros Hs. simplify_eq.
pose proof (commit_loop_frame _ _ _ _ _ _ _ _ Hl) as (_ & Hhi & _).
pose proof (commit_loop_done _ _ _ _ _ _ _ Hl) as Hdone.
cbn [commitIndex entries file set_commitIndex].
rewrite (proj2 (N.ltb_ge idx ci)) by lia.
rewrite commit_loop_skip by done.
by destruct l.
Qed.

End CommitMore.


Section AppendMore.

Context {Command : Type} `{CommandAPI Command}.

Implicit Types (l : Log Command) (e : LogEntry Command).

Lemma ordered_nil : ordered ([] : list (LogEntry Command)).
Proof. intros i e1 e2 Hi. by rewrite lookup_nil in Hi. Qed.

Lemma ordered_one e : ordered [e].
Proof. intros i e1 e2 _ Hi. by destruct i. Qed.

Lemma ordered_cons p e es :
ordered (p :: e :: es) <-> (term p <= term e /\ index e <> index p) /\ ordered (e :: es).
Proof.
split.
- intros Ho. split; [by apply (Ho 0%nat)|].
  intros i e1 e2 H1 H2. by apply (Ho (S i)).
- intros [Hp Ho] [|i] e1 e2 H1 H2.
  + simpl in H1, H2. by simplify_eq.
  + by apply (Ho i).
Qed.

Lemma accepted_ordered : forall (es : list (LogEntry Command)) p,
accepted (Some p) es = true <-> ordered (p :: es).
Proof.
induction es as [|e es IH]; intros p.
- split; [intros _; apply ordered_one | done].
- cbn [accepted]. rewrite ordered_cons, <- IH, !andb_true_iff, !negb_true_iff.
  rewrite N.ltb_ge, N.eqb_neq. tauto.
Qed.

Lemma accepted_None_ordered (es : list (LogEntry Command)) :
accepted None es = true <-> ordered es.
Proof.
destruct es as [|e es]; [split; [intros _; apply ordered_nil | done]|].
cbn [accepted andb]. apply accepted_ordered.
Qed.

(** Successive [Append]s on an open log succeed exactly when the test
    against the entry before accepts each entry. *)
Lemma run_ok_appends_accepted f w : forall (es : list (LogEntry Command)) l,
file l = Some f ->
run_ok (map CallAppend es) (l, w)
= if accepted (last (entries l)) es
  then Some (set_entries (entries l ++ es) l, w) else None.
Proof.
induction es as [|e es IH]; intros l Hf.
- cbn. destruct l. unfold set_entries. cbn. by rewrite app_nil_r.
- cbn [map run_ok exec fst snd accepted]. unfold Append. rewrite Hf.
  assert (Hstep :
    run_ok (map CallAppend es) (set_entries (entries l ++ [e]) l, w)
    = if accepted (Some e) es
      then Some (set_entries (entries l ++ e :: es) l, w) else None).
  { rewrite IH by done. cbn [entries set_entries]. rewrite last_snoc.
    destruct (accepted (Some e) es); [|done].
    unfold set_entries. cbn. by rewrite <- app_assoc. }
  destruct (last (entries l)) as [p|]; [|exact Hstep].
  destruct (term e <? term p); [done|]. cbn [negb andb].
  destruct (N.eqb_spec (index e) (index p)) as [E|_]; [|exact Hstep].
  by rewrite E, N.leb_refl.
Qed.

End AppendMore.


Section OrderMore.

Context {Command : Type} `{CommandAPI Command}.

Implicit Types (l : Log Command) (e : LogEntry Command).

(** Which sequences [Append] accepts: on an open log without entries, the
    entries [es] are all appended, in order and without any write, when each
    has a term not below the term of the entry before it and another index
    than that entry; otherwise one of the calls is rejected. An index below
    the one before is accepted. *)
Theorem Append_accepts_ordered l w f es :
file l = Some f -> entries l = [] ->
(ordered es -> run_ok (map CallAppend es) (l, w) = Some (set_entries es l, w))
/\ (~ ordered es -> run_ok (map CallAppend es) (l, w) = None).
Proof.
intros Hf Hent. rewrite (run_ok_appends_accepted f w es l Hf), Hent.
cbn [last app]. split.
- intros Ho. by apply accepted_None_ordered in Ho as ->.
- intros Ho. destruct (accepted None es) eqn:E; [|done].
  by apply accepted_None_ordered in E.
Qed.

Lemma ascending_snoc (fs : list (LogEntry Command)) e :
ascending fs -> Forall (fun x => index x < index e) fs -> ascending (fs ++ [e]).
Proof.
induction fs as [|x fs IH]; intros Ha Hlt; cbn [app ascending].
- split; [constructor|done].
- destruct Ha as [Hx Ha]. inversion Hlt as [|? ? Hxe Hfs]; subst.
  split; [|by apply IH].
  apply Forall_app. split; [done|]. by constructor.
Qed.

Lemma Encode_faults_nil e wr w err w' :
faults w = [] -> Encode e wr w = (err, w') -> faults w' = [].
Proof.
intros Hf. unfold Encode, file_Write. destruct wr as [|f]; [by intros; simplify_eq|].
destruct (command e) as [c|]; [|by intros; simplify_eq].
destruct (json_Marshal c); [|by intros; simplify_eq].
destruct f; [|by intros; simplify_eq].
rewrite syscall_nil by done. by intros; simplify_eq.
Qed.

(** The loop of [SetCommitIndex] on a file in order, no write failing: the
    file stays in order, the lines written following those it held. *)
Lemma commit_loop_in_order path idx :
forall (es : list (LogEntry Command)) ci w fs err ci' w',
faults w = [] ->
disk w !! path = Some (concat (map encoded fs)) ->
ascending fs -> Forall (fun e => index e <= ci) fs ->
commit_loop (Some path) idx es ci w = (err, ci', w') ->
faults w' = [] /\
exists fs',
  disk w' !! path = Some (concat (map encoded fs')) /\
  ascending fs' /\ Forall (fun e => index e <= ci') fs' /\ fs `prefix_of` fs'.
Proof.
induction es as [|e es IH]; intros ci w fs err ci' w' Hf Hd Ha Hle Hl.
- simpl in Hl. simplify_eq. split; [done|]. by exists fs.
- cbn [commit_loop] in Hl.
  destruct ((ci <? index e) && (index e <=? idx)) eqn:Hin; [|by eapply IH].
  apply andb_prop in Hin as [Hlt%N.ltb_lt _].
  destruct (Encode e (FileWriter (Some path)) w) as [[err1|] w1] eqn:He.
  + simplify_eq. pose proof (Encode_faults_nil _ _ _ _ _ Hf He) as Hf1.
    apply Encode_effect in He as [[_ Hd1]|[? _]]; [|done].
    split; [done|]. exists fs. by rewrite Hd1.
  + apply Encode_effect in He as [[? _]|(_ & q & Hq & Hd1 & Hf1)]; [done|].
    simplify_eq.
    destruct (IH (index e) w1 (fs ++ [e]) err ci' w') as (Hf' & fs' & Hd' & Ha' & Hle' & Hpre);
      try done.
    * by rewrite Hf1, Hf.
    * rewrite Hd1, lookup_insert_eq, Hd. cbn.
      by rewrite map_app, concat_app; cbn; rewrite app_nil_r.
    * apply ascending_snoc; [done|].
      eapply Forall_impl; [exact Hle|]. cbn. intros x Hx. lia.
    * apply Forall_app. split.
      -- eapply Forall_impl; [exact Hle|]. cbn. intros x Hx. lia.
      -- constructor; [lia|constructor].
    * split; [done|]. exists fs'. split; [done|]. split; [done|]. split; [done|].
      by eapply prefix_app_l.
Qed.

Lemma Append_frame e l w :
exists err l', Append e l w = (err, l', w) /\
  file l' = file l /\ commitIndex l' = commitIndex l.
Proof.
unfold Append. destruct (file l) eqn:Hf; [|by eexists _, _].
destruct (last (entries l)) as [p|]; [|by eexists _, _].
destruct (term e <? term p); [by eexists _, _|].
destruct (_ && _); by eexists _, _.
Qed.

Lemma exec_in_order path (c : call Command) s :
appends_or_commits c = true ->
file_in_order path s -> faults s.2 = [] ->
file_in_order path (exec c s).2 /\ faults (exec c s).2.2 = [].
Proof.
destruct s as [l w]. unfold file_in_order. cbn [fst snd].
intros Hc (Hfile & fs & Hd & Ha & Hle) Hf.
destruct c as [p| |e|idx]; try done.
- destruct (Append_frame e l w) as (err & l' & Ho & Hf' & Hci).
  cbn [exec fst snd]. rewrite Ho. cbn [fst snd]. rewrite Hf', Hci.
  split; [|done]. split; [done|]. by exists fs.
- cbn [exec fst snd]. unfold SetCommitIndex.
  destruct (idx <? commitIndex l).
  { cbn [fst snd]. split; [|done]. split; [done|]. by exists fs. }
  destruct (commit_loop _ _ _ _ _) as [[err ci'] w'] eqn:Hl.
  cbn [fst snd file commitIndex set_commitIndex].
  rewrite Hfile in Hl.
  destruct (commit_loop_in_order path idx _ _ _ fs _ _ _ Hf Hd Ha Hle Hl)
    as (Hf' & fs' & Hd' & Ha' & Hle' & _).
  split; [|done]. split; [done|]. by exists fs'.
Qed.

(** On a log open on a file that holds the lines of entries with
    increasing indices, none above the commit index, any sequence of
    [Append] and [SetCommitIndex] calls, failed ones included, leaves such a
    file, as long as no write to the file system fails: an index is written
    at most once and in increasing order. *)
Theorem file_stays_in_order path : forall (cs : list (call Command)) s,
forallb appends_or_commits cs = true ->
file_in_order path s -> faults s.2 = [] ->
file_in_order path (run cs s) /\ faults (run cs s).2 = [].
Proof.
induction cs as [|c cs IH]; intros s Hcs Hin Hf; [done|].
cbn [forallb] in Hcs. apply andb_prop in Hcs as [Hc Hcs].
destruct (exec_in_order path c s Hc Hin Hf) as [Hin' Hf'].
unfold run. cbn [fold_left]. by apply IH.
Qed.

(** The registry: once a command type is added, [NewCommand] makes a fresh
    command of that type under its name and answers as before under the
    other names; the name was not registered before, and adding a command
    of that name again is refused. *)
Theorem AddCommandType_NewCommand c l l' :
AddCommandType (Some c) l = inr l' ->
NewCommand l (Name c) = None /\
NewCommand l' (Name c) = Some (reflect_New c) /\
(forall name, name <> Name c -> NewCommand l' name = NewCommand l name) /\
(forall c', Name c' = Name c -> AddCommandType (Some c') l' = inl PanicCommandType) /\
entries l' = entries l /\ commitIndex l' = commitIndex l /\ file l' = file l.
Proof.
unfold AddCommandType, NewCommand.
destruct (commandTypes l !! Name c) eqn:Hreg; [done|].
intros Ha. simplify_eq. cbn [commandTypes entries commitIndex file].
split; [done|]. split; [by rewrite lookup_insert_eq|]. split.
- intros name Hn. by rewrite lookup_insert_ne.
- split; [|done]. intros c' ->. by rewrite lookup_insert_eq.
Qed.

End OrderMore.


Section ComposeMore.

Context {Command : Type} `{CommandAPI Command}.

Implicit Types (l : Log Command) (e : LogEntry Command).

(** [Open] on a path without a file, or with an empty file: the file
    exists and is empty afterwards, the log is open on it, and the entries
    and the commit index are what they were. *)
Theorem Open_missing_file path l w :
default [] (disk w !! path) = [] -> faults w = [] ->
exists l' w',
  Open path l w = (None, l', w') /\
  file l' = Some path /\ entries l' = entries l /\
  commitIndex l' = commitIndex l /\
  disk w' !! path = Some [] /\
  forall q, q <> path -> disk w' !! q = disk w !! q.
Proof.
intros Hd Hf.
destruct (Open_empty path l w Hd Hf) as (w' & Ho & _ & Hd').
exists (set_file (Some path) l), w'. split; [done|].
do 4 (split; [done|]).
by apply (Open_other_paths path l w None (set_file (Some path) l) w').
Qed.

Lemma commit_loop_app f idx : forall (es1 es2 : list (LogEntry Command)) ci w,
commit_loop f idx (es1 ++ es2) ci w
= match commit_loop f idx es1 ci w with
  | (None, ci1, w1) => commit_loop f idx es2 ci1 w1
  | r => r
  end.
Proof.
induction es1 as [|e es1 IH]; intros es2 ci w; [done|].
cbn [app commit_loop].
destruct ((ci <? index e) && (index e <=? idx)); [|apply IH].
destruct (Encode e (FileWriter f) w) as [[err|] w1]; [done|]. apply IH.
Qed.

Lemma committed_all idx (es : list (LogEntry Command)) :
Forall (fun e => index e <= idx) es -> committed idx es = es.
Proof.
induction 1 as [|e es He _ IH]; [done|].
unfold committed in *. cbn [List.filter].
rewrite (proj2 (N.leb_le (index e) idx)) by done. by rewrite IH.
Qed.

Lemma Encode_unserializable e c f w :
command e = Some c -> json_Marshal c = None ->
Encode e (FileWriter f) w = (Some ErrMarshal, w).
Proof. intros Hc Hm. unfold Encode. by rewrite Hc, Hm. Qed.

(** [SetCommitIndex] stops at the first entry whose command does not
    serialize: with entries numbered consecutively from [k] above the commit
    index, of which those before [bad] serialize, the call returns the
    error of the serializer, the lines of the entries before [bad] are on
    file, the commit index is the index of the last of them, and the
    entries stay in memory. *)
Theorem SetCommitIndex_stops_at_unserializable path idx l w es1 bad c es2 k old :
file l = Some path -> faults w = [] -> disk w !! path = Some old ->
entries l = es1 ++ bad :: es2 ->
map index es1 = map N.of_nat (seq k (length es1)) ->
index bad = N.of_nat (k + length es1) ->
commitIndex l < N.of_nat k -> index bad <= idx ->
Forall (fun e => exists c p, command e = Some c /\ json_Marshal c = Some p) es1 ->
command bad = Some c -> json_Marshal c = None ->
exists l' w',
  SetCommitIndex idx l w = (Some ErrMarshal, l', w') /\
  entries l' = entries l /\
  commitIndex l' = replayed_index (commitIndex l) es1 /\
  disk w' !! path = Some (old ++ concat (map encoded es1)).
Proof.
intros Hfile Hf Hd Hent Hidx Hbad Hci Hle Hser Hc Hm.
assert (Hall : Forall (fun e => index e <= idx) es1).
{ apply Forall_forall. intros e He.
  apply list_elem_of_lookup in He as [i Hi].
  assert (Hi' : map index es1 !! i = Some (index e)) by (by rewrite list_lookup_fmap, Hi).
  rewrite Hidx, list_lookup_fmap in Hi'.
  destruct (seq k (length es1) !! i) as [j|] eqn:Hj; [|done].
  apply lookup_seq in Hj as [-> Hlt]. cbn in Hi'. simplify_eq. lia. }
unfold SetCommitIndex. rewrite (proj2 (N.ltb_ge idx (commitIndex l))) by lia.
rewrite Hfile, Hent, commit_loop_app.
destruct (commit_loop_seq path idx es1 k (commitIndex l) w old Hf Hd Hidx Hci)
  as (w1 & -> & Hf1 & Hd1).
{ by rewrite committed_all. }
rewrite committed_all in * by done.
cbn [commit_loop].
assert (Hin : (replayed_index (commitIndex l) es1 <? index bad) && (index bad <=? idx) = true).
{ apply andb_true_iff. split; [|by apply N.leb_le].
  apply N.ltb_lt. unfold replayed_index.
  destruct (last es1) as [x|] eqn:Hx; cbn; [|lia].
  apply last_Some in Hx as [es' ->].
  rewrite map_app, length_app in Hidx. cbn in Hidx.
  rewrite seq_app, map_app in Hidx. cbn in Hidx.
  apply app_inj_2 in Hidx as [_ Hx]; [|done]. simplify_eq.
  rewrite length_app in Hbad. cbn in Hbad. lia. }
rewrite Hin, (Encode_unserializable bad c) by done.
eexists _, _. split; [reflexivity|]. cbn [entries commitIndex set_commitIndex].
by rewrite Hent.
Qed.

Lemma last_map {A B} (f : A -> B) (xs : list A) : last (map f xs) = f <$> last xs.
Proof.
induction xs as [|x [|y xs] IH]; [done..|].
cbn [map] in *. by rewrite !last_cons_cons.
Qed.

Lemma run_ok_step (c : call Command) cs s s' :
exec c s = (None, s') -> run_ok (c :: cs) s = run_ok cs s'.
Proof. intros He. cbn [run_ok]. by rewrite He. Qed.

Lemma term_reread l e : term (reread l e) = term e.
Proof.
unfold reread. destruct (command e); [|done].
destruct (json_Marshal _); [|done]. destruct (commandTypes l !! _); [|done].
by destruct (json_Decode _ _) as [[? ?]|].
Qed.

Lemma ascending_below_last ci (es : list (LogEntry Command)) :
ascending es -> Forall (fun x => index x <= replayed_index ci es) es.
Proof.
induction es as [|e es IH]; intros Ha; [constructor|].
destruct Ha as [He Ha]. rewrite replayed_index_cons. constructor.
- unfold replayed_index. destruct (last es) as [x|] eqn:Hx; cbn; [|lia].
  apply last_Some_elem_of in Hx. rewrite Forall_forall in He.
  specialize (He x Hx). lia.
- specialize (IH Ha). unfold replayed_index in *.
  destruct (last es) as [x|] eqn:Hx; cbn in *; [done|].
  apply last_None in Hx. subst es. constructor.
Qed.

(** Recovery composes with the commit path: after [Open] has cut the
    trailing bytes of a crash off a file of entries with increasing indices,
    an entry appended above them and committed is written right after their
    lines, and closing and opening again yields the entries of the file
    followed by the new one. *)
Theorem recover_then_commit path l w es g e :
entries l = [] ->
Forall (fun x => storable l x = true) es -> ascending es -> garbage g ->
storable l e = true ->
disk w !! path = Some (concat (map encoded es) ++ g) -> faults w = [] ->
replayed_index (commitIndex l) es < index e ->
default 0 (term <$> last es) <= term e ->
exists s,
  run_ok [CallOpen path; CallAppend e; CallSetCommitIndex (index e);
          CallClose; CallOpen path] (l, w) = Some s /\
  map view (entries s.1) = map view (es ++ [e]) /\
  commitIndex s.1 = index e /\
  disk s.2 !! path = Some (concat (map encoded (es ++ [e]))).
Proof.
intros Hent Hall Hasc Hg He Hdisk Hf Hidx Hterm.
destruct (Open_replays path l w es g Hall Hg Hdisk Hf) as (w1 & Ho1 & Hf1 & Hd1).
set (l1 := set_file (Some path) (replayed l es)).
set (ci1 := replayed_index (commitIndex l) es).
assert (Hent1 : entries l1 = map (reread l) es).
{ unfold l1, replayed. cbn. by rewrite Hent. }
(* Append *)
assert (Happ : Append e l1 w1 = (None, set_entries (entries l1 ++ [e]) l1, w1)).
{ pose proof (run_ok_appends_accepted path w1 [e] l1 eq_refl) as Hr.
  cbn [map run_ok exec fst snd] in Hr.
  assert (Hacc : accepted (last (entries l1)) [e] = true).
  { cbn [accepted]. rewrite andb_true_r, Hent1.
    rewrite last_map. destruct (last es) as [x|] eqn:Hx; cbn; [|done].
    rewrite term_reread, index_reread. cbn in Hterm.
    unfold replayed_index in Hidx. rewrite Hx in Hidx. cbn in Hidx.
    rewrite (proj2 (N.ltb_ge (term e) (term x))) by lia.
    by rewrite (proj2 (N.eqb_neq (index e) (index x))) by lia. }
  rewrite Hacc in Hr.
  destruct (Append e l1 w1) as [[[err|] l2] w2]; [done|]. by simplify_eq. }
(* SetCommitIndex *)
set (l2 := set_entries (entries l1 ++ [e]) l1).
destruct (storable_serializes l e He) as (c & p & Hc & Hm).
assert (Hset : SetCommitIndex (index e) l2 w1
  = (None, set_commitIndex (index e) l2,
     set_disk (<[path := default [] (disk w1 !! path) ++ encoded e]> (disk w1)) w1)).
{ unfold SetCommitIndex.
  change (commitIndex l2) with ci1. change (file l2) with (Some path).
  change (entries l2) with (entries l1 ++ [e]).
  rewrite (proj2 (N.ltb_ge (index e) ci1)) by (unfold ci1; lia).
  rewrite commit_loop_app, commit_loop_skip.
  - cbn [commit_loop].
    rewrite (proj2 (N.ltb_lt ci1 (index e))) by done.
    rewrite N.leb_refl. cbn [andb].
    by rewrite (Encode_written e c p) by done.
  - rewrite Hent1. apply forallb_forall. intros x Hx.
    apply in_map_iff in Hx as (x0 & <- & Hx0).
    rewrite index_reread. apply negb_true_iff, andb_false_iff. left.
    apply N.ltb_ge. pose proof (ascending_below_last (commitIndex l) es Hasc) as Hb.
    rewrite Forall_forall in Hb. apply Hb. by apply list_elem_of_In. }
(* Close and Open *)
set (w2 := set_disk (<[path := default [] (disk w1 !! path) ++ encoded e]> (disk w1)) w1).
set (l4 := set_entries [] (set_file None (set_commitIndex (index e) l2))).
assert (Hall' : Forall (fun x => storable l4 x = true) (es ++ [e])).
{ apply Forall_app. split; [exact Hall|]. by constructor. }
destruct (Open_replays path l4 w2 (es ++ [e]) []) as (w5 & Ho5 & _ & Hd5).
{ exact Hall'. }
{ by apply incomplete_line, not_elem_of_nil. }
{ unfold w2, set_disk. cbn [disk]. rewrite lookup_insert_eq, Hd1. cbn.
  by rewrite map_app, concat_app, app_nil_r; cbn; rewrite app_nil_r. }
{ done. }
exists (set_file (Some path) (replayed l4 (es ++ [e])), w5).
split.
- rewrite (run_ok_step _ _ _ (l1, w1)) by (cbn [exec fst snd]; by rewrite Ho1).
  rewrite (run_ok_step _ _ _ (l2, w1)) by (cbn [exec fst snd]; by rewrite Happ).
  rewrite (run_ok_step _ _ _ (set_commitIndex (index e) l2, w2))
    by (cbn [exec fst snd]; by rewrite Hset).
  rewrite (run_ok_step _ _ _ (l4, w2)) by done.
  by rewrite (run_ok_step _ _ _ (set_file (Some path) (replayed l4 (es ++ [e])), w5))
    by (cbn [exec fst snd]; by rewrite Ho5).
- cbn [fst snd]. split; [|split; [|done]].
  + unfold replayed. cbn [entries set_file set_entries app].
    by apply map_view_reread.
  + unfold replayed, replayed_index. cbn [commitIndex set_file set_entries set_commitIndex].
    by rewrite last_snoc.
Qed.

End ComposeMore.

(** ** The properties on the command set of the application *)


Lemma torn_is_garbage : garbage Demo.torn.
Proof.
apply incomplete_line. apply (bool_decide_unpack _). vm_compute. exact I.
Defined.


Lemma Encode_format_witness :
exists w' cs ix tm,
  Encode (Demo.noop 1 1) (FileWriter (Some Demo.path)) Demo.world0 = (None, w') /\
  disk w' !! Demo.path
  = Some (default [] (disk Demo.world0 !! Demo.path) ++ cs ++ [SP] ++ ix ++ [SP] ++ tm
            ++ [SP] ++ list_ascii_of_string (Name Demo.Noop) ++ [SP]
            ++ Demo.la "{}" ++ [NL]) /\
  length cs = 8%nat /\ Forall Hex.lower_hex cs /\
  Hex.value cs
  = CRC32.ChecksumIEEE (ix ++ [SP] ++ tm ++ [SP]
                          ++ list_ascii_of_string (Name Demo.Noop) ++ [SP]
                          ++ Demo.la "{}" ++ [NL]) /\
  length ix = 16%nat /\ Forall Hex.lower_hex ix /\ Hex.value ix = 1 /\
  length tm = 16%nat /\ Forall Hex.lower_hex tm /\ Hex.value tm = 1.
Proof.
apply (Encode_format (Demo.noop 1 1) Demo.Noop (Demo.la "{}") Demo.path Demo.world0).
- reflexivity.
- reflexivity.
- reflexivity.
- reflexivity.
- reflexivity.
Defined.


(** C5 as stated fails: one log used on two paths. After the calls of
    [Demo.two_files], all of which succeed, the commit index is 2; opening
    the first path again succeeds and leaves it at 1. *)
Lemma commitIndex_decreases_on_Open :
exists s s',
  run_ok Demo.two_files (Demo.log0, Demo.world0) = Some s /\
  exec (CallOpen "a") s = (None, s') /\
  commitIndex s.1 = 2 /\ commitIndex s'.1 = 1.
Proof.
eexists _, _. split; [vm_compute; reflexivity|].
split; [vm_compute; reflexivity|]. split; reflexivity.
Qed.

Lemma commitIndex_monotone_witness :
commitIndex Demo.appended.1
  <= commitIndex (run [CallSetCommitIndex 2; CallAppend (Demo.noop 4 2); CallClose]
                    Demo.appended).1
/\ SetCommitIndex 1 Demo.closed.1 Demo.closed.2
   = (Some (ErrCommitIndex (commitIndex Demo.closed.1) 1), Demo.closed.1, Demo.closed.2)
/\ commitIndex (Open Demo.path Demo.log0 Demo.crashed).1.2
   = replayed_index (commitIndex Demo.log0) Demo.two.
Proof.
split; [|split].
- apply (proj1 commitIndex_monotone). reflexivity.
- apply (proj1 (proj2 commitIndex_monotone)). vm_compute. reflexivity.
- apply (proj2 (proj2 commitIndex_monotone) _ _ _ _ Demo.torn).
  + repeat (constructor; [vm_compute; reflexivity|]). constructor.
  + exact torn_is_garbage.
  + vm_compute. reflexivity.
  + reflexivity.
Defined.

Lemma Append_ordering_witness :
(exists err,
   Append (Demo.noop 4 1) Demo.appended.1 Demo.appended.2
   = (Some err, Demo.appended.1, Demo.appended.2))
/\ (exists err,
      Append (Demo.noop 3 5) Demo.appended.1 Demo.appended.2
      = (Some err, Demo.appended.1, Demo.appended.2)).
Proof.
split.
- apply (Append_ordering _ _ _ Demo.path (Demo.noop 3 2)).
  + reflexivity.
  + reflexivity.
  + left. vm_compute. reflexivity.
- apply (Append_ordering _ _ _ Demo.path (Demo.noop 3 2)).
  + reflexivity.
  + reflexivity.
  + right. reflexivity.
Defined.

Lemma Append_memory_only_witness :
entries (set_entries (Demo.three ++ [Demo.noop 4 2]) Demo.appended.1)
  = entries Demo.appended.1 ++ [Demo.noop 4 2] /\
commitIndex (set_entries (Demo.three ++ [Demo.noop 4 2]) Demo.appended.1)
  = commitIndex Demo.appended.1 /\
file (set_entries (Demo.three ++ [Demo.noop 4 2]) Demo.appended.1)
  = file Demo.appended.1 /\
commandTypes (set_entries (Demo.three ++ [Demo.noop 4 2]) Demo.appended.1)
  = commandTypes Demo.appended.1 /\
Demo.appended.2 = Demo.appended.2.
Proof.
apply (Append_memory_only Demo.appended.1 Demo.appended.2 (Demo.noop 4 2)).
vm_compute. reflexivity.
Defined.

(** C8: a line whose checksum verifies and whose command deserializes, with
    the bytes "xx" between the serialized command and the newline, is
    decoded without error. *)
Lemma Decode_accepts_trailing_bytes :
Demo.dirty_line
= Demo.la "c33a0f3d 0000000000000001 0000000000000001 noop {}xx" ++ [NL]
/\ Decode Demo.log0 (Some Demo.dirty_line) = (53%nat, Decoded (Demo.noop 1 1) []).
Proof. split; vm_compute; reflexivity. Qed.

(** The same check rejects what [Encode] wrote for an entry whose serialized
    command ends at the first read boundary of the decoder. *)
Lemma Decode_rejects_wide_entry :
length <$> (command Demo.wide ≫= json_Marshal) = Some 512%nat
/\ Decode Demo.log0 (Some (encoded Demo.wide)) = (560%nat, Failed (ErrExpectedEOL NL)).
Proof. split; vm_compute; reflexivity. Qed.

(** C9 as stated fails: on a log that was never opened, and on one that was
    closed, [SetCommitIndex] returns no error. *)
Lemma SetCommitIndex_not_open_succeeds :
file Demo.log0 = None
/\ SetCommitIndex 5 Demo.log0 Demo.world0 = (None, Demo.log0, Demo.world0)
/\ file Demo.closed.1 = None
/\ SetCommitIndex 5 Demo.closed.1 Demo.closed.2 = (None, Demo.closed.1, Demo.closed.2).
Proof. repeat split; vm_compute; reflexivity. Qed.

Lemma not_open_rejection_witness :
(forall e w, Append e Demo.closed.1 w = (Some ErrNotOpen, Demo.closed.1, w))
/\ (forall idx w,
      exists err,
        SetCommitIndex idx Demo.closed.1 w = (err, Demo.closed.1, w) /\
        (err = None <->
         commitIndex Demo.closed.1 <= idx /\
         forallb (fun e => negb ((commitIndex Demo.closed.1 <? index e) && (index e <=? idx)))
           (entries Demo.closed.1) = true)).
Proof.
apply (not_open_rejection Demo.closed.1). reflexivity.
Defined.

Lemma Close_keeps_commitIndex_witness :
1 < commitIndex (set_commitIndex 2 Demo.appended.1) /\
exists l',
  Close (set_commitIndex 2 Demo.appended.1) Demo.appended.2 = (l', Demo.appended.2) /\
  file l' = None /\ entries l' = [] /\
  commitIndex l' = commitIndex (set_commitIndex 2 Demo.appended.1) /\
  SetCommitIndex 1 l' Demo.appended.2
  = (Some (ErrCommitIndex (commitIndex (set_commitIndex 2 Demo.appended.1)) 1),
     l', Demo.appended.2).
Proof.
split; [vm_compute; reflexivity|].
destruct (Close_keeps_commitIndex (set_commitIndex 2 Demo.appended.1) Demo.appended.2)
  as (l' & Hc & Hf & He & Hci & _ & Hj).
exists l'. repeat split; try assumption.
apply Hj. vm_compute. reflexivity.
Defined.

(** ** The further properties on the scenarios *)



Lemma Decode_needs_newline_witness :
  (exists n err, Decode Demo.log0 (Some Demo.torn) = (n, Failed err))
  /\ Decode Demo.log0 (Some Demo.torn) = (20%nat, Failed ErrUnexpectedEOF).
Proof.
assert (Hnl : NL ∉ Demo.torn).
{ apply (bool_decide_unpack _). vm_compute. exact I. }
destruct (Decode_needs_newline Demo.log0 Demo.torn Hnl) as [Hfail Hpos].
split; [exact Hfail|].
apply (Hpos (Demo.la "d1a0f5c4") 3516986820 (Demo.la "00000000000")); vm_compute; reflexivity.
Defined.


Lemma Open_unregistered_truncates_witness :
  exists l' w',
    Open Demo.path Scenario.noop_only Scenario.mixed = (None, l', w') /\
    entries l' = entries Scenario.noop_only
                 ++ map (reread Scenario.noop_only) [Demo.noop 1 1] /\
    file l' = Some Demo.path /\
    disk w' !! Demo.path = Some (concat (map encoded [Demo.noop 1 1])).
Proof.
apply (Open_unregistered_truncates Demo.path Scenario.noop_only Scenario.mixed
         [Demo.noop 1 1] (Scenario.put 2 1 "ab") (Demo.Put (Demo.la "ab"))
         (encoded (Demo.noop 3 1))).
- repeat (constructor; [vm_compute; reflexivity|]). constructor.
- vm_compute. reflexivity.
- reflexivity.
- vm_compute. reflexivity.
- vm_compute. reflexivity.
- reflexivity.
Defined.

Lemma Open_frame_witness :
  commandTypes (Open Demo.path Demo.log0 Demo.crashed).1.2 = commandTypes Demo.log0 /\
  entries Demo.log0 `prefix_of` entries (Open Demo.path Demo.log0 Demo.crashed).1.2 /\
  (forall q, q <> Demo.path ->
     disk (Open Demo.path Demo.log0 Demo.crashed).2 !! q = disk Demo.crashed !! q) /\
  ((Open Demo.path Demo.log0 Demo.crashed).1.1 = None ->
     file (Open Demo.path Demo.log0 Demo.crashed).1.2 = Some Demo.path /\
     is_Some (disk (Open Demo.path Demo.log0 Demo.crashed).2 !! Demo.path)).
Proof.
apply (Open_frame Demo.path Demo.log0 Demo.crashed).
by destruct (Open Demo.path Demo.log0 Demo.crashed) as [[err l'] w'].
Defined.

Lemma Open_twice_duplicates_witness :
  exists l1 w1 l2 w2,
    Open Demo.path Demo.log0 Scenario.stored = (None, l1, w1) /\
    Open Demo.path l1 w1 = (None, l2, w2) /\
    entries l2 = entries Demo.log0 ++ map (reread Demo.log0) Demo.two
                 ++ map (reread Demo.log0) Demo.two /\
    commitIndex l2 = commitIndex l1.
Proof.
apply (Open_twice_duplicates Demo.path Demo.log0 Scenario.stored Demo.two).
- repeat (constructor; [vm_compute; reflexivity|]). constructor.
- vm_compute. reflexivity.
- reflexivity.
Defined.

Lemma Open_missing_file_witness :
  exists l' w',
    Open Demo.path Demo.log0 Demo.world0 = (None, l', w') /\
    file l' = Some Demo.path /\ entries l' = entries Demo.log0 /\
    commitIndex l' = commitIndex Demo.log0 /\
    disk w' !! Demo.path = Some [] /\
    forall q, q <> Demo.path -> disk w' !! q = disk Demo.world0 !! q.
Proof.
apply (Open_missing_file Demo.path Demo.log0 Demo.world0); reflexivity.
Defined.

Lemma SetCommitIndex_frame_witness :
  let r := SetCommitIndex 2 Demo.appended.1 Demo.appended.2 in
  entries r.1.2 = entries Demo.appended.1 /\
  file r.1.2 = file Demo.appended.1 /\
  commandTypes r.1.2 = commandTypes Demo.appended.1 /\
  commitIndex Demo.appended.1 <= commitIndex r.1.2 /\
  commitIndex r.1.2 <= N.max (commitIndex Demo.appended.1) 2 /\
  (commitIndex r.1.2 = commitIndex Demo.appended.1
   \/ exists e, e ∈ entries Demo.appended.1 /\ index e = commitIndex r.1.2) /\
  (forall q, file Demo.appended.1 <> Some q ->
     disk r.2 !! q = disk Demo.appended.2 !! q) /\
  (forall q, default [] (disk Demo.appended.2 !! q)
             `prefix_of` default [] (disk r.2 !! q)).
Proof.
intros r.
apply (SetCommitIndex_frame 2 Demo.appended.1 Demo.appended.2 r.1.1).
unfold r.
by destruct (SetCommitIndex 2 Demo.appended.1 Demo.appended.2) as [[err l'] w'].
Defined.

Lemma SetCommitIndex_idempotent_witness :
  let r := SetCommitIndex 2 Demo.appended.1 Demo.appended.2 in
  SetCommitIndex 2 r.1.2 r.2 = (None, r.1.2, r.2).
Proof.
intros r.
apply (SetCommitIndex_idempotent 2 Demo.appended.1 Demo.appended.2).
vm_compute. reflexivity.
Defined.

Lemma SetCommitIndex_stops_at_unserializable_witness :
  exists l' w',
    SetCommitIndex 3 Scenario.unserializable.1 Scenario.unserializable.2
    = (Some ErrMarshal, l', w') /\
    entries l' = entries Scenario.unserializable.1 /\
    commitIndex l'
    = replayed_index (commitIndex Scenario.unserializable.1) [Demo.noop 1 1] /\
    disk w' !! Demo.path = Some ([] ++ concat (map encoded [Demo.noop 1 1])).
Proof.
apply (SetCommitIndex_stops_at_unserializable Demo.path 3
         Scenario.unserializable.1 Scenario.unserializable.2
         [Demo.noop 1 1] (Scenario.put 2 1 "a b") (Demo.Put (Demo.la "a b"))
         [Demo.noop 3 1] 1 []).
- reflexivity.
- reflexivity.
- vm_compute. reflexivity.
- reflexivity.
- reflexivity.
- reflexivity.
- vm_compute. reflexivity.
- vm_compute. discriminate.
- constructor; [|constructor].
  exists Demo.Noop, (Demo.la "{}"). split; vm_compute; reflexivity.
- reflexivity.
- vm_compute. reflexivity.
Defined.

Lemma Append_accepts_ordered_witness :
  run_ok (map CallAppend Demo.three) (set_file (Some Demo.path) Demo.log0, Demo.world0)
  = Some (set_entries Demo.three (set_file (Some Demo.path) Demo.log0), Demo.world0)
  /\ run_ok (map CallAppend [Demo.noop 2 2; Demo.noop 3 1])
       (set_file (Some Demo.path) Demo.log0, Demo.world0) = None.
Proof.
destruct (Append_accepts_ordered (set_file (Some Demo.path) Demo.log0) Demo.world0
            Demo.path Demo.three eq_refl eq_refl) as [Hyes _].
destruct (Append_accepts_ordered (set_file (Some Demo.path) Demo.log0) Demo.world0
            Demo.path [Demo.noop 2 2; Demo.noop 3 1] eq_refl eq_refl) as [_ Hno].
split.
- apply Hyes. apply accepted_None_ordered. vm_compute. reflexivity.
- apply Hno. intros Ho. apply accepted_None_ordered in Ho. vm_compute in Ho. discriminate.
Defined.

Lemma file_stays_in_order_witness :
  file_in_order Demo.path (run Scenario.more_calls Demo.appended)
  /\ faults (run Scenario.more_calls Demo.appended).2 = [].
Proof.
apply (file_stays_in_order Demo.path Scenario.more_calls Demo.appended).
- reflexivity.
- split; [reflexivity|]. exists []. split; [reflexivity|]. split; [exact I|constructor].
- reflexivity.
Defined.

Lemma recover_then_commit_witness :
  exists s,
    run_ok [CallOpen Demo.path; CallAppend (Demo.noop 3 2);
            CallSetCommitIndex (index (Demo.noop 3 2));
            CallClose; CallOpen Demo.path] (Demo.log0, Demo.crashed) = Some s /\
    map view (entries s.1) = map view (Demo.two ++ [Demo.noop 3 2]) /\
    commitIndex s.1 = index (Demo.noop 3 2) /\
    disk s.2 !! Demo.path = Some (concat (map encoded (Demo.two ++ [Demo.noop 3 2]))).
Proof.
apply (recover_then_commit Demo.path Demo.log0 Demo.crashed Demo.two Demo.torn
         (Demo.noop 3 2)).
- reflexivity.
- repeat (constructor; [vm_compute; reflexivity|]). constructor.
- cbn. repeat split; repeat constructor.
- left. apply (bool_decide_unpack _). vm_compute. exact I.
- vm_compute. reflexivity.
- vm_compute. reflexivity.
- reflexivity.
- vm_compute. reflexivity.
- vm_compute. discriminate.
Defined.

Lemma AddCommandType_NewCommand_witness :
  NewCommand (@NewLog Demo.cmd) (Name Demo.Noop) = None /\
  NewCommand Scenario.noop_only (Name Demo.Noop)
  = Some (reflect_New Demo.Noop) /\
  (forall name, name <> Name Demo.Noop ->
     NewCommand Scenario.noop_only name = NewCommand (@NewLog Demo.cmd) name) /\
  (forall c', Name c' = Name Demo.Noop ->
     AddCommandType (Some c') Scenario.noop_only = inl PanicCommandType) /\
  entries Scenario.noop_only = entries (@NewLog Demo.cmd) /\
  commitIndex Scenario.noop_only = commitIndex (@NewLog Demo.cmd) /\
  file Scenario.noop_only = file (@NewLog Demo.cmd).
Proof.
apply (AddCommandType_NewCommand Demo.Noop (@NewLog Demo.cmd) Scenario.noop_only).
vm_compute. reflexivity.
Defined.
